(** * seekablestream: a seekable ring-buffer stream (seekablestream.c)

    Shallow embedding of [sstm_new], [sstm_clean], [sstm_read], [sstm_write]
    and [sstm_seek] over explicit state, with the 32-bit arithmetic of
    [sstm_size_t] (uint32_t) and [sstm_offs_t] (int32_t) written out.

    Conventions of the embedding:
    - a [sstm_size_t] value is a [Z] in [0, 2^32); every unsigned operation
      of the source is followed by [u32];
    - a [sstm_offs_t] value is a [Z] in [-2^31, 2^31); the conversion
      uint32_t -> int32_t and the signed addition in [sstm_seek] are taken
      in two's complement ([s32]), as the targets of the library do;
    - a block of memory obtained from malloc, or handed in by the caller,
      is a [list byte]; an access outside the block, a division by zero and
      a store through a null pointer are undefined behaviour and give
      [Undef];
    - the nested structs [conf] and [cache] of [struct _sstm_ctx] are
      flattened into one record. *)

From Stdlib Require Import ZArith Lia.
From Stdlib Require Import Init.Byte.
From stdpp Require Import base tactics option list numbers.

Local Open Scope Z_scope.

(** ** Machine integers *)

Definition u32 (x : Z) : Z := x mod 2 ^ 32.

Definition s32 (x : Z) : Z := (x + 2 ^ 31) mod 2 ^ 32 - 2 ^ 31.

Definition is_u32 (x : Z) : Prop := 0 <= x < 2 ^ 32.

Definition is_s32 (x : Z) : Prop := - 2 ^ 31 <= x < 2 ^ 31.

(** ** Outcomes: a result, or undefined behaviour *)

Inductive outcome (A : Type) : Type :=
  | Done (a : A)
  | Undef.

Arguments Done {A} a.
Arguments Undef {A}.

Definition obind {A B : Type} (m : outcome A) (k : A -> outcome B) : outcome B :=
  match m with
  | Done a => k a
  | Undef => Undef
  end.

#[global] Instance outcome_ret : MRet outcome := fun A a => Done a.
#[global] Instance outcome_bind : MBind outcome := fun A B k m => obind m k.

(** The [%] operator on uint32_t operands. *)
Definition umod (a b : Z) : outcome Z :=
  if b =? 0 then Undef else Done (a mod b).

(** ** Memory blocks *)

Abbreviation block := (list byte) (only parsing).

#[global] Instance byte_inhabited : Inhabited byte := populate x00.

Definition zlen (b : block) : Z := Z.of_nat (length b).

(** The byte at offset [p] of [b]. *)
Definition byte_at (b : block) (p : Z) : byte := b !!! Z.to_nat p.

(** Read [n] bytes at offset [off] of [b]. *)
Definition load (b : block) (off n : Z) : outcome (list byte) :=
  if (0 <=? off) && (0 <=? n) && (off + n <=? zlen b)
  then Done (take (Z.to_nat n) (drop (Z.to_nat off) b))
  else Undef.

(** Overwrite [b] at offset [off] with the bytes [bs]. *)
Definition store (b : block) (off : Z) (bs : list byte) : outcome block :=
  if (0 <=? off) && (off + zlen bs <=? zlen b)
  then Done (take (Z.to_nat off) b ++ bs ++ drop (Z.to_nat off + length bs) b)
  else Undef.

(** [memcpy (dst + doff, src + soff, n)]; the blocks never overlap: one is
    the ring buffer, private to the context, the other is the caller's. *)
Definition memcpy (dst : block) (doff : Z) (src : block) (soff n : Z) : outcome block :=
  bs ← load src soff n; store dst doff bs.

(** [memset (dst + doff, c, n)]. *)
Definition memset (dst : block) (doff : Z) (c : byte) (n : Z) : outcome block :=
  if 0 <=? n then store dst doff (replicate (Z.to_nat n) c) else Undef.

(** ** Constants of seekablestream.h *)

Definition SSTM_CAP_SIZE_MIN : Z := 128.
Definition SSTM_CAP_SIZE_DEF : Z := 1024.

Definition SSTM_OK : Z := 0.
Definition SSTM_ERR : Z := -1.
Definition SSTM_ERR_NO_MEM : Z := -2.
Definition SSTM_ERR_NO_SPACE : Z := -3.
Definition SSTM_ERR_NO_DATA : Z := -4.
Definition SSTM_ERR_BAD_OFFS : Z := -5.

Inductive sstm_whence : Type :=
  | SSTM_SEEK_SET
  | SSTM_SEEK_CUR
  | SSTM_SEEK_END.

Record sstm_conf : Type := { conf_cap_size : Z }.

(** ** The context, [struct _sstm_ctx] *)

Record sstm_ctx : Type := {
  cap_size : Z;
  alloc_size : Z;
  used_size : Z;
  stale_size : Z;
  fresh_size : Z;
  free_size : Z;
  ring_buff : block;
  head_idx : Z;
  tail_idx : Z;
  seek_offs : Z
}.

(** ** sstm_new

    [m_ring] is what [malloc (alloc_size)] returns (None for NULL, else the
    fresh block with its indeterminate contents) and [m_ctx] tells whether
    [malloc (sizeof (sstm_ctx_t))] returns a non-null pointer.  The second
    component of the result is the context stored through [ctx], if any. *)

Definition new_cap_size (conf : option sstm_conf) : Z :=
  match conf with
  | None => SSTM_CAP_SIZE_DEF
  | Some c =>
      if conf_cap_size c <? SSTM_CAP_SIZE_MIN then SSTM_CAP_SIZE_DEF
      else conf_cap_size c
  end.

Definition new_alloc_size (cap : Z) : Z :=
  u32 (Z.shiftl (u32 (Z.shiftr cap 3 + 1)) 3).

Definition sstm_new (conf : option sstm_conf) (m_ring : option block) (m_ctx : bool)
  : outcome (Z * option sstm_ctx) :=
  let cap := new_cap_size conf in
  let alloc := new_alloc_size cap in
  let ring_buff := m_ring in
  match ring_buff with
  | None => Done (SSTM_ERR_NO_MEM, None)
  | Some _ =>
      let new_ctx := m_ctx in
      (* the source tests ring_buff a second time here, not new_ctx *)
      match ring_buff with
      | None => (* free (ring_buff) *) Done (SSTM_ERR_NO_MEM, None)
      | Some ring =>
          if new_ctx then
            Done (SSTM_OK,
                  Some {| cap_size := cap; alloc_size := alloc;
                          used_size := 0; stale_size := 0; fresh_size := 0;
                          free_size := cap; ring_buff := ring;
                          head_idx := 0; tail_idx := 0; seek_offs := 0 |})
          else (* new_ctx->conf.cap_size = cap_size, with new_ctx null *)
            Undef
      end
  end.

(** ** sstm_clean *)

Definition sstm_clean (ctx : sstm_ctx) : outcome (Z * sstm_ctx) :=
  let stale := stale_size ctx in
  if stale =? 0 then Done (SSTM_OK, ctx)
  else
    head ← umod (u32 (head_idx ctx + stale)) (u32 (cap_size ctx + 1));
    Done (SSTM_OK,
          {| cap_size := cap_size ctx; alloc_size := alloc_size ctx;
             used_size := u32 (used_size ctx - stale);
             stale_size := 0;
             fresh_size := fresh_size ctx;
             free_size := u32 (free_size ctx + stale);
             ring_buff := ring_buff ctx;
             head_idx := head; tail_idx := tail_idx ctx;
             seek_offs := 0 |}).

(** ** sstm_read

    [data] is the caller's destination block (None for NULL); the third
    component of the result is that block after the call. *)

Definition read_copy (ring : block) (cap new_head_idx size : Z) (dst : block)
  : outcome block :=
  if size <=? u32 (cap + 1 - new_head_idx) then
    memcpy dst 0 ring new_head_idx size
  else
    let first_copy_size := u32 (cap + 1 - new_head_idx) in
    let second_copy_size := u32 (size - first_copy_size) in
    d ← memcpy dst 0 ring new_head_idx first_copy_size;
    memcpy d first_copy_size ring 0 second_copy_size.

(** The cache update of [sstm_read]: [size] bytes go from fresh to stale. *)
Definition advance_cursor (ctx : sstm_ctx) (size : Z) : sstm_ctx :=
  {| cap_size := cap_size ctx; alloc_size := alloc_size ctx;
     used_size := used_size ctx;
     stale_size := u32 (stale_size ctx + size);
     fresh_size := u32 (fresh_size ctx - size);
     free_size := free_size ctx;
     ring_buff := ring_buff ctx;
     head_idx := head_idx ctx; tail_idx := tail_idx ctx;
     seek_offs := u32 (seek_offs ctx + size) |}.

Definition sstm_read (ctx : sstm_ctx) (data : option block) (size : Z) (cleanup : bool)
  : outcome (Z * sstm_ctx * option block) :=
  if size =? 0 then Done (SSTM_OK, ctx, data)
  else if fresh_size ctx <? size then Done (SSTM_ERR_NO_DATA, ctx, data)
  else
    new_head_idx ← umod (u32 (head_idx ctx + seek_offs ctx)) (u32 (cap_size ctx + 1));
    data' ← match data with
             | None => Done None
             | Some dst =>
                 d ← read_copy (ring_buff ctx) (cap_size ctx) new_head_idx size dst;
                 Done (Some d)
             end;
    let ctx1 := advance_cursor ctx size in
    if cleanup then
      r ← sstm_clean ctx1; Done (SSTM_OK, snd r, data')
    else Done (SSTM_OK, ctx1, data').

(** ** sstm_write

    [data] is the caller's source block (None for NULL: zeros are written). *)

Definition write_copy (ring : block) (cap tail size : Z) (data : option block)
  : outcome (block * Z) :=
  if size <=? u32 (cap + 1 - tail) then
    ring' ← match data with
             | Some src => memcpy ring tail src 0 size
             | None => memset ring tail x00 size
             end;
    tail' ← umod (u32 (tail + size)) (u32 (cap + 1));
    Done (ring', tail')
  else
    let first_copy_size := u32 (cap + 1 - tail) in
    let second_copy_size := u32 (size - first_copy_size) in
    ring' ← match data with
             | Some src =>
                 r ← memcpy ring tail src 0 first_copy_size;
                 memcpy r 0 src first_copy_size second_copy_size
             | None =>
                 r ← memset ring tail x00 first_copy_size;
                 memset r 0 x00 second_copy_size
             end;
    Done (ring', second_copy_size).

Definition sstm_write (ctx : sstm_ctx) (data : option block) (size : Z)
  : outcome (Z * sstm_ctx) :=
  if size =? 0 then Done (SSTM_OK, ctx)
  else if free_size ctx <? size then Done (SSTM_ERR_NO_SPACE, ctx)
  else
    rt ← write_copy (ring_buff ctx) (cap_size ctx) (tail_idx ctx) size data;
    Done (SSTM_OK,
          {| cap_size := cap_size ctx; alloc_size := alloc_size ctx;
             used_size := u32 (used_size ctx + size);
             stale_size := stale_size ctx;
             fresh_size := u32 (fresh_size ctx + size);
             free_size := u32 (free_size ctx - size);
             ring_buff := fst rt;
             head_idx := head_idx ctx; tail_idx := snd rt;
             seek_offs := seek_offs ctx |}).

(** ** sstm_seek *)

Definition seek_abs_offs (ctx : sstm_ctx) (offset : Z) (whence : sstm_whence) : Z :=
  match whence with
  | SSTM_SEEK_SET => offset
  | SSTM_SEEK_CUR => s32 (s32 (seek_offs ctx) + offset)
  | SSTM_SEEK_END => s32 (s32 (used_size ctx) + offset)
  end.

Definition sstm_seek (ctx : sstm_ctx) (offset : Z) (whence : sstm_whence)
  : outcome (Z * sstm_ctx) :=
  let abs_offs := seek_abs_offs ctx offset whence in
  if abs_offs <? 0 then Done (SSTM_ERR_BAD_OFFS, ctx)
  else if used_size ctx <? u32 abs_offs then Done (SSTM_ERR_BAD_OFFS, ctx)
  else if u32 abs_offs =? seek_offs ctx then Done (SSTM_OK, ctx)
  else
    Done (SSTM_OK,
          {| cap_size := cap_size ctx; alloc_size := alloc_size ctx;
             used_size := used_size ctx;
             stale_size := u32 abs_offs;
             fresh_size := u32 (used_size ctx - u32 abs_offs);
             free_size := free_size ctx;
             ring_buff := ring_buff ctx;
             head_idx := head_idx ctx; tail_idx := tail_idx ctx;
             seek_offs := u32 abs_offs |}).

(** ** Calls, runs and reachable states *)

Inductive call : Type :=
  | CallWrite (data : option block) (size : Z)
  | CallRead (data : option block) (size : Z) (cleanup : bool)
  | CallSeek (offset : Z) (whence : sstm_whence)
  | CallClean.

(** The arguments have the C types of the prototypes. *)
Definition call_ok (c : call) : Prop :=
  match c with
  | CallWrite _ size => is_u32 size
  | CallRead _ size _ => is_u32 size
  | CallSeek offset _ => is_s32 offset
  | CallClean => True
  end.

(** A non-null buffer argument has room for [size] bytes. *)
Definition call_valid (c : call) : Prop :=
  call_ok c /\
  match c with
  | CallWrite (Some b) size => size <= zlen b
  | CallRead (Some b) size _ => size <= zlen b
  | _ => True
  end.

Definition run (c : call) (ctx : sstm_ctx) : outcome (Z * sstm_ctx) :=
  match c with
  | CallWrite data size => sstm_write ctx data size
  | CallRead data size cleanup =>
      r ← sstm_read ctx data size cleanup; Done (fst r)
  | CallSeek offset whence => sstm_seek ctx offset whence
  | CallClean => sstm_clean ctx
  end.

Definition conf_ok (conf : option sstm_conf) : Prop :=
  match conf with
  | None => True
  | Some c => is_u32 (conf_cap_size c)
  end.

(** A stream is reachable when [sstm_new] produced it, malloc having
    returned a block of the size asked for, or when a call on a reachable
    stream returned it. *)
Inductive reachable : sstm_ctx -> Prop :=
  | reachable_new conf ring ctx :
      conf_ok conf ->
      zlen ring = new_alloc_size (new_cap_size conf) ->
      sstm_new conf (Some ring) true = Done (SSTM_OK, Some ctx) ->
      reachable ctx
  | reachable_step ctx c r ctx' :
      reachable ctx ->
      call_ok c ->
      run c ctx = Done (r, ctx') ->
      reachable ctx'.

(** ** The five invariants of the data model *)

Record invariants (ctx : sstm_ctx) : Prop := {
  inv_used : used_size ctx = stale_size ctx + fresh_size ctx;
  inv_free : free_size ctx = cap_size ctx - used_size ctx;
  inv_cursor :
    0 <= seek_offs ctx <= used_size ctx /\ seek_offs ctx = stale_size ctx;
  inv_dist :
    (tail_idx ctx - head_idx ctx) mod (cap_size ctx + 1) = used_size ctx;
  inv_idx :
    (0 <= head_idx ctx <= cap_size ctx) /\ (0 <= tail_idx ctx <= cap_size ctx)
}.

(** What holds of every reachable stream, whatever its capacity: the
    counters are consistent, the indices are in range and the ring buffer
    is the block that was allocated. *)
Record consistent (ctx : sstm_ctx) : Prop := {
  cs_cap : is_u32 (cap_size ctx);
  cs_alloc : alloc_size ctx = new_alloc_size (cap_size ctx);
  cs_ring : zlen (ring_buff ctx) = alloc_size ctx;
  cs_used : used_size ctx = stale_size ctx + fresh_size ctx;
  cs_free : free_size ctx = cap_size ctx - used_size ctx;
  cs_seek : seek_offs ctx = stale_size ctx;
  cs_stale : 0 <= stale_size ctx;
  cs_fresh : 0 <= fresh_size ctx;
  cs_le : used_size ctx <= cap_size ctx;
  cs_head : 0 <= head_idx ctx <= cap_size ctx;
  cs_tail : 0 <= tail_idx ctx <= cap_size ctx
}.

(** ** The logical contents of the ring *)

(** The [n] bytes found from index [start] on, wrapping at [m]. *)
Definition ring_slice (ring : block) (m start n : Z) : list byte :=
  (fun i => byte_at ring (i mod m)) <$> seqZ start n.

(** The fresh region: [fresh_size] bytes from the cursor on. *)
Definition fresh_bytes (ctx : sstm_ctx) : list byte :=
  ring_slice (ring_buff ctx) (cap_size ctx + 1)
    (head_idx ctx + seek_offs ctx) (fresh_size ctx).

(** What a read copies out: [size] bytes from the index the code computes. *)
Definition read_window (ctx : sstm_ctx) (size : Z) : list byte :=
  ring_slice (ring_buff ctx) (cap_size ctx + 1)
    (u32 (head_idx ctx + seek_offs ctx)) size.

(** The byte number [j] that a write takes from its [data] argument. *)
Definition src_byte (data : option block) (j : Z) : byte :=
  match data with
  | Some src => byte_at src j
  | None => x00
  end.

(** The seek target as the data model describes it, over the integers. *)
Definition seek_target (ctx : sstm_ctx) (offset : Z) (whence : sstm_whence) : Z :=
  match whence with
  | SSTM_SEEK_SET => offset
  | SSTM_SEEK_CUR => seek_offs ctx + offset
  | SSTM_SEEK_END => used_size ctx + offset
  end.

(** The fourth invariant alone. *)
Definition dist_ok (ctx : sstm_ctx) : Prop :=
  (tail_idx ctx - head_idx ctx) mod (cap_size ctx + 1) = used_size ctx.

(** ** Traces and concrete streams *)

(** Run a list of calls, one after the other. *)
Fixpoint run_all (cs : list call) (ctx : sstm_ctx) : outcome sstm_ctx :=
  match cs with
  | [] => Done ctx
  | c :: cs' => r ← run c ctx; run_all cs' (snd r)
  end.

(** The stream [sstm_new (&ctx, NULL)] gives when malloc hands back a
    zeroed block: capacity 1024, 1032 bytes allocated. *)
Definition default_stream : sstm_ctx :=
  {| cap_size := 1024; alloc_size := 1032;
     used_size := 0; stale_size := 0; fresh_size := 0; free_size := 1024;
     ring_buff := replicate 1032 x00;
     head_idx := 0; tail_idx := 0; seek_offs := 0 |}.

(** The stream [sstm_new] gives for a requested capacity of
    4294967288 = 2^32 - 8: the allocation size wraps around to 0, and
    [malloc (0)] may return a non-null pointer to an empty block. *)
Definition wrapped_stream : sstm_ctx :=
  {| cap_size := 4294967288; alloc_size := 0;
     used_size := 0; stale_size := 0; fresh_size := 0; free_size := 4294967288;
     ring_buff := [];
     head_idx := 0; tail_idx := 0; seek_offs := 0 |}.

(** The stream [sstm_new] gives for a requested capacity of
    4294967295 = 2^32 - 1: the allocation size wraps around to 0 and so
    does the modulus, capacity + 1. *)
Definition widest_stream : sstm_ctx :=
  {| cap_size := 4294967295; alloc_size := 0;
     used_size := 0; stale_size := 0; fresh_size := 0; free_size := 4294967295;
     ring_buff := [];
     head_idx := 0; tail_idx := 0; seek_offs := 0 |}.

(** [widest_stream] as [sstm_write] would leave it after one byte, were the
    byte stored in some ring buffer [ring]: the copy is split, 0 bytes at
    the tail and 1 byte at index 0, and the tail becomes 1. *)
Definition widest_stream_written (ring : block) : sstm_ctx :=
  {| cap_size := 4294967295; alloc_size := 0;
     used_size := 1; stale_size := 0; fresh_size := 1; free_size := 4294967294;
     ring_buff := ring;
     head_idx := 0; tail_idx := 1; seek_offs := 0 |}.

(** The streams of capacity 2147483648 = 2^31, for which [sstm_new]
    allocates 2^31 + 8 bytes: [ring] is the ring buffer, the counters are
    given by the stale and fresh sizes. *)
Definition huge_stream (ring : block) (stale fresh head tail : Z) : sstm_ctx :=
  {| cap_size := 2147483648; alloc_size := 2147483656;
     used_size := stale + fresh; stale_size := stale; fresh_size := fresh;
     free_size := 2147483648 - (stale + fresh);
     ring_buff := ring;
     head_idx := head; tail_idx := tail; seek_offs := stale |}.

(** The block malloc hands back, here zeroed. *)
Definition huge_ring : block := replicate (Z.to_nat 2147483656) x00.

(** Fill the stream, read it all with cleanup, fill it again, read it all. *)
Definition huge_calls : list call :=
  [CallWrite None 2147483648; CallRead None 2147483648 true;
   CallWrite None 2147483648; CallRead None 2147483648 false].

(** ** sstm_stat

    The snapshot stored through [stat]; the context is only read. *)

Record sstm_stat_t : Type := {
  stat_cap_size : Z;
  stat_used_size : Z;
  stat_stale_size : Z;
  stat_fresh_size : Z;
  stat_free_size : Z;
  stat_seek_offs : Z
}.

Definition sstm_stat (ctx : sstm_ctx) : Z * sstm_stat_t :=
  (SSTM_OK,
   {| stat_cap_size := cap_size ctx;
      stat_used_size := used_size ctx;
      stat_stale_size := stale_size ctx;
      stat_fresh_size := fresh_size ctx;
      stat_free_size := free_size ctx;
      stat_seek_offs := seek_offs ctx |}).

(** The resident bytes: [used_size] bytes from the head on, stale ones
    first, fresh ones after them. *)
Definition resident_bytes (ctx : sstm_ctx) : list byte :=
  ring_slice (ring_buff ctx) (cap_size ctx + 1) (head_idx ctx) (used_size ctx).

(** The [size] bytes a write puts into the ring: the first [size] bytes of
    the source, or zeros for a null source. *)
Definition written_bytes (data : option block) (size : Z) : list byte :=
  match data with
  | Some src => take (Z.to_nat size) src
  | None => replicate (Z.to_nat size) x00
  end.

(** The default stream after [sstm_write (ctx, NULL, 10)] and
    [sstm_read (ctx, NULL, 4, 0)]: 4 stale bytes, 6 fresh ones. *)
Definition sample_stream : sstm_ctx :=
  {| cap_size := 1024; alloc_size := 1032;
     used_size := 10; stale_size := 4; fresh_size := 6; free_size := 1014;
     ring_buff := replicate 1032 x00;
     head_idx := 0; tail_idx := 10; seek_offs := 4 |}.

(** ** Arithmetic *)

Ltac side_condition :=
  first [assumption | lia | vm_compute; reflexivity | intros ? [=]].

Lemma u32_small x : 0 <= x < 2 ^ 32 -> u32 x = x.
Proof. intros H. unfold u32. apply Z.mod_small. lia. Qed.

Lemma s32_small x : - 2 ^ 31 <= x < 2 ^ 31 -> s32 x = x.
Proof. intros H. unfold s32. rewrite Z.mod_small; lia. Qed.

Lemma u32_range x : 0 <= u32 x < 2 ^ 32.
Proof. unfold u32. apply Z.mod_pos_bound. lia. Qed.

Lemma s32_range x : - 2 ^ 31 <= s32 x < 2 ^ 31.
Proof.
  unfold s32. pose proof (Z.mod_pos_bound (x + 2 ^ 31) (2 ^ 32)). lia.
Qed.

Lemma s32_high x : 2 ^ 31 <= x < 2 ^ 32 -> s32 x = x - 2 ^ 32.
Proof.
  intros H. unfold s32.
  replace (x + 2 ^ 31) with (x - 2 ^ 31 + 1 * 2 ^ 32) by lia.
  rewrite Z_mod_plus_full, Z.mod_small; lia.
Qed.

Lemma s32_low x : - 2 ^ 32 <= x < - 2 ^ 31 -> s32 x = x + 2 ^ 32.
Proof.
  intros H. unfold s32.
  replace (x + 2 ^ 31) with (x + 2 ^ 32 + 2 ^ 31 + (-1) * 2 ^ 32) by lia.
  rewrite Z_mod_plus_full, Z.mod_small; lia.
Qed.

Lemma mod_once m x : m <= x < 2 * m -> x mod m = x - m.
Proof.
  intros H. replace x with (x - m + 1 * m) at 1 by lia.
  rewrite Z_mod_plus_full. apply Z.mod_small. lia.
Qed.

Lemma mod_below m x : - m <= x < 0 -> x mod m = x + m.
Proof.
  intros H. replace x with (x + m + (-1) * m) at 1 by lia.
  rewrite Z_mod_plus_full. apply Z.mod_small. lia.
Qed.

Lemma new_alloc_size_ok cap :
  0 <= cap -> cap + 8 < 2 ^ 32 ->
  cap + 1 <= new_alloc_size cap <= cap + 8.
Proof.
  intros H0 H1. unfold new_alloc_size.
  rewrite Z.shiftr_div_pow2, Z.shiftl_mul_pow2 by lia.
  change (2 ^ 3) with 8.
  pose proof (Z.div_mod cap 8 ltac:(lia)) as Hd.
  pose proof (Z.mod_pos_bound cap 8 ltac:(lia)) as Hm.
  rewrite (u32_small (cap / 8 + 1)) by lia.
  rewrite u32_small by lia. lia.
Qed.

Lemma new_alloc_size_wrap cap :
  cap < 2 ^ 32 -> 2 ^ 32 <= cap + 8 -> new_alloc_size cap = 0.
Proof.
  intros H0 H1. unfold new_alloc_size.
  rewrite Z.shiftr_div_pow2, Z.shiftl_mul_pow2 by lia.
  change (2 ^ 3) with 8.
  assert (cap / 8 = 2 ^ 29 - 1) as ->.
  { symmetry. apply (Z.div_unique cap 8 _ (cap - 8 * (2 ^ 29 - 1))); lia. }
  replace (2 ^ 29 - 1 + 1) with (2 ^ 29) by lia.
  rewrite (u32_small (2 ^ 29)) by lia.
  reflexivity.
Qed.

(** ** Memory *)

Lemma store_spec b off bs :
  0 <= off -> off + zlen bs <= zlen b ->
  exists b', store b off bs = Done b' /\ zlen b' = zlen b /\
    forall p, 0 <= p ->
      byte_at b' p =
      if decide (off <= p < off + zlen bs) then byte_at bs (p - off)
      else byte_at b p.
Proof.
  unfold zlen. intros H0 H1. eexists. split; [|split].
  - unfold store, zlen.
    destruct (Z.leb_spec 0 off); [|lia].
    destruct (Z.leb_spec (off + Z.of_nat (length bs)) (Z.of_nat (length b))); [|lia].
    reflexivity.
  - rewrite !length_app, length_take, length_drop. lia.
  - intros p Hp. unfold byte_at. rewrite !list_lookup_total_alt.
    assert (length (take (Z.to_nat off) b) = Z.to_nat off) as Hlt
      by (rewrite length_take; lia).
    case_decide as Hd.
    + rewrite lookup_app_r by lia. rewrite lookup_app_l by lia.
      do 2 f_equal. lia.
    + destruct (Z.lt_ge_cases p off).
      * rewrite lookup_app_l by lia. rewrite lookup_take_lt by lia. done.
      * rewrite lookup_app_r by lia. rewrite lookup_app_r by lia.
        rewrite lookup_drop. do 2 f_equal. lia.
Qed.

Lemma load_spec b off n :
  0 <= off -> 0 <= n -> off + n <= zlen b ->
  exists l, load b off n = Done l /\ zlen l = n /\
    forall j, 0 <= j < n -> byte_at l j = byte_at b (off + j).
Proof.
  unfold zlen. intros H0 H1 H2. eexists. split; [|split].
  - unfold load, zlen.
    destruct (Z.leb_spec 0 off); [|lia].
    destruct (Z.leb_spec 0 n); [|lia].
    destruct (Z.leb_spec (off + n) (Z.of_nat (length b))); [|lia].
    reflexivity.
  - rewrite length_take, length_drop. lia.
  - intros j Hj. unfold byte_at. rewrite !list_lookup_total_alt.
    rewrite lookup_take_lt by lia. rewrite lookup_drop. do 2 f_equal. lia.
Qed.

Lemma memcpy_spec dst doff src soff n :
  0 <= doff -> 0 <= soff -> 0 <= n ->
  doff + n <= zlen dst -> soff + n <= zlen src ->
  exists d, memcpy dst doff src soff n = Done d /\ zlen d = zlen dst /\
    forall p, 0 <= p ->
      byte_at d p =
      if decide (doff <= p < doff + n) then byte_at src (soff + (p - doff))
      else byte_at dst p.
Proof.
  intros H0 H1 H2 H3 H4.
  destruct (load_spec src soff n) as (l & Hl & Hlen & Hat); [lia..|].
  destruct (store_spec dst doff l) as (d & Hd & Hdlen & Hdat); [lia..|].
  exists d. unfold memcpy. rewrite Hl. simpl. split; [done|]. split; [done|].
  intros p Hp. rewrite Hdat by done. rewrite Hlen.
  case_decide; [|done]. apply Hat. lia.
Qed.

Lemma memset_spec dst doff n :
  0 <= doff -> 0 <= n -> doff + n <= zlen dst ->
  exists d, memset dst doff x00 n = Done d /\ zlen d = zlen dst /\
    forall p, 0 <= p ->
      byte_at d p =
      if decide (doff <= p < doff + n) then x00 else byte_at dst p.
Proof.
  intros H0 H1 H2.
  assert (zlen (replicate (Z.to_nat n) x00) = n) as Hrep
    by (unfold zlen; rewrite length_replicate; lia).
  destruct (store_spec dst doff (replicate (Z.to_nat n) x00))
    as (d & Hd & Hdlen & Hdat); [lia..|].
  exists d. unfold memset. destruct (Z.leb_spec 0 n); [|lia].
  split; [done|]. split; [done|].
  intros p Hp. rewrite Hdat by done. rewrite Hrep.
  case_decide; [|done].
  unfold byte_at. apply lookup_total_replicate_2. lia.
Qed.

Lemma load_inv b off n l :
  load b off n = Done l ->
  0 <= off /\ 0 <= n /\ off + n <= zlen b /\ zlen l = n.
Proof.
  unfold load.
  destruct (Z.leb_spec 0 off); simpl; [|discriminate].
  destruct (Z.leb_spec 0 n); simpl; [|discriminate].
  destruct (Z.leb_spec (off + n) (zlen b)); [|discriminate].
  intros [= <-]. unfold zlen in *. rewrite length_take, length_drop. lia.
Qed.

Lemma store_inv b off bs b' :
  store b off bs = Done b' ->
  0 <= off /\ off + zlen bs <= zlen b /\ zlen b' = zlen b.
Proof.
  unfold store.
  destruct (Z.leb_spec 0 off); simpl; [|discriminate].
  destruct (Z.leb_spec (off + zlen bs) (zlen b)); [|discriminate].
  intros [= <-]. unfold zlen in *.
  rewrite !length_app, length_take, length_drop. lia.
Qed.

Lemma memcpy_inv dst doff src soff n d :
  memcpy dst doff src soff n = Done d ->
  0 <= doff /\ 0 <= n /\ doff + n <= zlen dst /\ zlen d = zlen dst.
Proof.
  unfold memcpy. destruct (load src soff n) as [l|] eqn:Hl; [|discriminate].
  simpl. intros Hs. apply load_inv in Hl. apply store_inv in Hs. lia.
Qed.

Lemma memset_inv dst doff c n d :
  memset dst doff c n = Done d ->
  0 <= doff /\ 0 <= n /\ doff + n <= zlen dst /\ zlen d = zlen dst.
Proof.
  unfold memset. destruct (Z.leb_spec 0 n); [|discriminate].
  intros Hs. apply store_inv in Hs. unfold zlen in *.
  rewrite length_replicate in Hs. lia.
Qed.

Lemma block_ext (a b : block) :
  zlen a = zlen b ->
  (forall j, 0 <= j < zlen a -> byte_at a j = byte_at b j) ->
  a = b.
Proof.
  unfold zlen, byte_at. intros Hlen Hat.
  apply (list_eq_same_length _ _ (length a)); [lia|done|].
  intros i x y Hi Hx Hy.
  specialize (Hat (Z.of_nat i) ltac:(lia)).
  rewrite Nat2Z.id, !list_lookup_total_alt, Hx, Hy in Hat. done.
Qed.

Lemma ring_slice_length ring m start n :
  0 <= n -> zlen (ring_slice ring m start n) = n.
Proof.
  intros Hn. unfold zlen, ring_slice. rewrite length_fmap, length_seqZ. lia.
Qed.

Lemma ring_slice_at ring m start n j :
  0 <= j < n ->
  byte_at (ring_slice ring m start n) j = byte_at ring ((start + j) mod m).
Proof.
  intros Hj. unfold ring_slice. unfold byte_at at 1.
  rewrite list_lookup_total_alt, list_lookup_fmap.
  rewrite lookup_seqZ_lt by lia. simpl. do 2 f_equal. lia.
Qed.

(** ** The two copy loops *)

Lemma read_copy_spec ring cap idx size dst :
  0 <= cap -> cap + 1 < 2 ^ 32 -> cap + 1 <= zlen ring ->
  0 <= idx <= cap -> 0 <= size <= cap + 1 -> size <= zlen dst ->
  exists d, read_copy ring cap idx size dst = Done d /\ zlen d = zlen dst /\
    forall p, 0 <= p ->
      byte_at d p =
      if decide (p < size) then byte_at ring ((idx + p) mod (cap + 1))
      else byte_at dst p.
Proof.
  intros Hc0 Hc1 Hr Hi Hs Hd. unfold read_copy.
  rewrite (u32_small (cap + 1 - idx)) by lia.
  destruct (Z.leb_spec size (cap + 1 - idx)) as [Hle|Hgt].
  - destruct (memcpy_spec dst 0 ring idx size) as (d & Hm & Hlen & Hat); [lia..|].
    exists d. split; [done|]. split; [done|].
    intros p Hp. rewrite Hat by done.
    repeat case_decide; try lia; [|done].
    rewrite Z.mod_small by lia. f_equal. lia.
  - rewrite (u32_small (size - (cap + 1 - idx))) by lia.
    destruct (memcpy_spec dst 0 ring idx (cap + 1 - idx))
      as (d1 & Hm1 & Hlen1 & Hat1); [lia..|].
    destruct (memcpy_spec d1 (cap + 1 - idx) ring 0 (size - (cap + 1 - idx)))
      as (d & Hm & Hlen & Hat); [lia..|].
    exists d. rewrite Hm1. simpl. split; [done|]. split; [lia|].
    intros p Hp. rewrite Hat, Hat1 by done.
    repeat case_decide; try lia; [| |done].
    + rewrite mod_once by lia. f_equal. lia.
    + rewrite Z.mod_small by lia. f_equal. lia.
Qed.

Lemma write_copy_spec ring cap tail size data :
  0 <= cap -> cap + 1 < 2 ^ 32 -> cap + 1 <= zlen ring ->
  0 <= tail <= cap -> 1 <= size <= cap ->
  (forall src, data = Some src -> size <= zlen src) ->
  exists ring',
    write_copy ring cap tail size data = Done (ring', (tail + size) mod (cap + 1)) /\
    zlen ring' = zlen ring /\
    forall p, 0 <= p < cap + 1 ->
      byte_at ring' p =
      if decide ((p - tail) mod (cap + 1) < size)
      then src_byte data ((p - tail) mod (cap + 1))
      else byte_at ring p.
Proof.
  intros Hc0 Hc1 Hr Ht Hs Hsrc. unfold write_copy.
  rewrite (u32_small (cap + 1 - tail)) by lia.
  assert (forall p, 0 <= p < cap + 1 ->
            (p - tail) mod (cap + 1) =
            if decide (tail <= p) then p - tail else p - tail + (cap + 1)) as Hmod.
  { intros p Hp. case_decide; [apply Z.mod_small|apply mod_below]; lia. }
  destruct (Z.leb_spec size (cap + 1 - tail)) as [Hle|Hgt].
  - assert (exists ring', match data with
              | Some src => memcpy ring tail src 0 size
              | None => memset ring tail x00 size end = Done ring' /\
              zlen ring' = zlen ring /\
              forall p, 0 <= p -> byte_at ring' p =
                if decide (tail <= p < tail + size)
                then src_byte data (p - tail) else byte_at ring p)
      as (ring' & -> & Hlen & Hat).
    { destruct data as [src|]; simpl.
      - specialize (Hsrc src eq_refl).
        destruct (memcpy_spec ring tail src 0 size) as (d & ? & ? & Hat); [lia..|].
        exists d. split; [done|]. split; [done|]. intros p Hp. rewrite Hat by done.
        case_decide; [|done]. f_equal.
      - apply memset_spec; lia. }
    exists ring'. simpl. rewrite (u32_small (tail + size)), (u32_small (cap + 1)) by lia.
    unfold umod. destruct (Z.eqb_spec (cap + 1) 0); [lia|].
    split; [done|]. split; [done|].
    intros p Hp. rewrite Hat, Hmod by lia.
    repeat case_decide; try lia; done.
  - rewrite (u32_small (size - (cap + 1 - tail))) by lia.
    assert (exists ring', match data with
              | Some src =>
                  r ← memcpy ring tail src 0 (cap + 1 - tail);
                  memcpy r 0 src (cap + 1 - tail) (size - (cap + 1 - tail))
              | None =>
                  r ← memset ring tail x00 (cap + 1 - tail);
                  memset r 0 x00 (size - (cap + 1 - tail)) end = Done ring' /\
              zlen ring' = zlen ring /\
              forall p, 0 <= p < cap + 1 -> byte_at ring' p =
                if decide (p < size - (cap + 1 - tail))
                then src_byte data (cap + 1 - tail + p)
                else if decide (tail <= p)
                then src_byte data (p - tail) else byte_at ring p)
      as (ring' & -> & Hlen & Hat).
    { destruct data as [src|]; simpl.
      - specialize (Hsrc src eq_refl).
        destruct (memcpy_spec ring tail src 0 (cap + 1 - tail))
          as (r & -> & Hl1 & Hat1); [lia..|]. simpl.
        destruct (memcpy_spec r 0 src (cap + 1 - tail) (size - (cap + 1 - tail)))
          as (d & -> & Hl2 & Hat2); [lia..|].
        exists d. split; [done|]. split; [lia|]. intros p Hp.
        rewrite Hat2, Hat1 by lia.
        repeat case_decide; try lia; try done; f_equal; lia.
      - destruct (memset_spec ring tail (cap + 1 - tail))
          as (r & -> & Hl1 & Hat1); [lia..|]. simpl.
        destruct (memset_spec r 0 (size - (cap + 1 - tail)))
          as (d & -> & Hl2 & Hat2); [lia..|].
        exists d. split; [done|]. split; [lia|]. intros p Hp.
        rewrite Hat2, Hat1 by lia.
        repeat case_decide; try lia; done. }
    exists ring'. simpl. rewrite mod_once by lia.
    split; [do 2 f_equal; lia|]. split; [done|].
    intros p Hp. rewrite Hat, Hmod by lia.
    repeat case_decide; try lia; try done; f_equal; lia.
Qed.

Lemma write_copy_inv ring cap tail size data ring' tail' :
  write_copy ring cap tail size data = Done (ring', tail') ->
  is_u32 cap -> 0 <= tail <= cap -> 1 <= size <= cap ->
  zlen ring' = zlen ring /\ 1 <= zlen ring /\
  (cap + 1 < 2 ^ 32 -> tail' = (tail + size) mod (cap + 1)).
Proof.
  unfold write_copy, is_u32. intros Hw Hc Ht Hs.
  pose proof (u32_range (cap + 1 - tail)) as Hf.
  destruct (Z.leb_spec size (u32 (cap + 1 - tail))) as [Hle|Hgt].
  - destruct (match data with
              | Some src => memcpy ring tail src 0 size
              | None => memset ring tail x00 size end) as [r|] eqn:Hr;
      [|discriminate].
    assert (tail + size <= zlen ring /\ zlen r = zlen ring) as [Hb Hl].
    { destruct data; [apply memcpy_inv in Hr|apply memset_inv in Hr]; lia. }
    simpl in Hw. unfold umod in Hw.
    destruct (u32 (cap + 1) =? 0); [discriminate|].
    simpl in Hw. injection Hw as <- <-.
    split; [done|]. split; [lia|].
    intros Hc1. rewrite (u32_small (cap + 1 - tail)) in Hle by lia.
    rewrite !u32_small by lia. done.
  - rewrite (u32_small (size - u32 (cap + 1 - tail))) in Hw by lia.
    destruct (match data with
              | Some src =>
                  r ← memcpy ring tail src 0 (u32 (cap + 1 - tail));
                  memcpy r 0 src (u32 (cap + 1 - tail)) (size - u32 (cap + 1 - tail))
              | None =>
                  r ← memset ring tail x00 (u32 (cap + 1 - tail));
                  memset r 0 x00 (size - u32 (cap + 1 - tail)) end)
      as [r2|] eqn:Hr; [|discriminate].
    simpl in Hw. injection Hw as <- <-.
    assert (size - u32 (cap + 1 - tail) <= zlen ring /\ zlen r2 = zlen ring)
      as [Hb Hl].
    { destruct data.
      - destruct (memcpy ring tail _ 0 _) as [r1|] eqn:H1; [|discriminate].
        simpl in Hr. apply memcpy_inv in H1. apply memcpy_inv in Hr. lia.
      - destruct (memset ring tail x00 _) as [r1|] eqn:H1; [|discriminate].
        simpl in Hr. apply memset_inv in H1. apply memset_inv in Hr. lia. }
    split; [done|]. split; [lia|].
    intros Hc1. rewrite (u32_small (cap + 1 - tail)) in * by lia.
    rewrite mod_once by lia. lia.
Qed.

(** ** Consistency of every reachable stream *)

Lemma invariants_intro ctx : consistent ctx -> dist_ok ctx -> invariants ctx.
Proof. intros [] Hd. split; try done; lia. Qed.

Lemma sstm_new_consistent conf ring r ctx :
  conf_ok conf ->
  zlen ring = new_alloc_size (new_cap_size conf) ->
  sstm_new conf (Some ring) true = Done (r, Some ctx) ->
  consistent ctx /\ dist_ok ctx /\ cap_size ctx = new_cap_size conf.
Proof.
  intros Hconf Hring [= <- <-].
  assert (is_u32 (new_cap_size conf)) as Hcap.
  { unfold new_cap_size, conf_ok, is_u32, SSTM_CAP_SIZE_DEF in *.
    destruct conf as [c|]; [|lia]. destruct (_ <? _); simpl in *; lia. }
  unfold is_u32 in Hcap.
  split; [split; simpl; unfold is_u32; try done; lia|].
  split; [|done]. unfold dist_ok. simpl. apply Z.mod_0_l. lia.
Qed.

Lemma sstm_clean_consistent ctx r ctx' :
  consistent ctx -> sstm_clean ctx = Done (r, ctx') ->
  consistent ctx' /\ cap_size ctx' = cap_size ctx.
Proof.
  intros Hc. unfold sstm_clean. cbv zeta.
  destruct (Z.eqb_spec (stale_size ctx) 0); [intros [= <- <-]; done|].
  unfold umod. destruct (Z.eqb_spec (u32 (cap_size ctx + 1)) 0) as [|Hm];
    [discriminate|].
  simpl. intros [= <- <-]. destruct Hc. unfold is_u32 in *.
  assert (cap_size ctx + 1 < 2 ^ 32) as Hlt.
  { destruct (Z.eq_dec (cap_size ctx + 1) (2 ^ 32)) as [He|]; [|lia].
    rewrite He in Hm. done. }
  rewrite (u32_small (cap_size ctx + 1)) in * by lia.
  pose proof (Z.mod_pos_bound (u32 (head_idx ctx + stale_size ctx))
                (cap_size ctx + 1) ltac:(lia)).
  split; [|done].
  split; simpl; unfold is_u32; rewrite ?u32_small by lia; try done; lia.
Qed.

Lemma sstm_clean_dist ctx r ctx' :
  consistent ctx -> dist_ok ctx -> cap_size ctx < 2 ^ 31 ->
  sstm_clean ctx = Done (r, ctx') -> dist_ok ctx'.
Proof.
  intros Hc Hd Hcap. unfold sstm_clean. cbv zeta.
  destruct (Z.eqb_spec (stale_size ctx) 0); [intros [= <- <-]; done|].
  destruct Hc. unfold is_u32, dist_ok in *.
  rewrite !u32_small by lia.
  unfold umod. destruct (Z.eqb_spec (cap_size ctx + 1) 0); [lia|].
  simpl. intros [= <- <-]. simpl.
  rewrite Zminus_mod_idemp_r.
  replace (tail_idx ctx - (head_idx ctx + stale_size ctx))
    with (tail_idx ctx - head_idx ctx - stale_size ctx) by lia.
  rewrite <- Zminus_mod_idemp_l, Hd.
  apply Z.mod_small. lia.
Qed.

Lemma advance_cursor_consistent ctx size :
  consistent ctx -> 0 <= size <= fresh_size ctx ->
  consistent (advance_cursor ctx size).
Proof.
  intros [] Hs. unfold is_u32 in *.
  split; simpl; unfold is_u32; rewrite ?u32_small by lia; try done; lia.
Qed.

Lemma consistent_cap_alloc ctx :
  consistent ctx -> 1 <= zlen (ring_buff ctx) -> cap_size ctx + 8 < 2 ^ 32.
Proof.
  intros [] Hlen. unfold is_u32 in *.
  destruct (Z.lt_ge_cases (cap_size ctx + 8) (2 ^ 32)) as [|Hge]; [done|].
  pose proof (new_alloc_size_wrap (cap_size ctx) ltac:(lia) Hge). lia.
Qed.

Lemma consistent_ring_size ctx :
  consistent ctx -> cap_size ctx + 8 < 2 ^ 32 ->
  cap_size ctx + 1 <= zlen (ring_buff ctx).
Proof.
  intros [] Hlt. unfold is_u32 in *.
  pose proof (new_alloc_size_ok (cap_size ctx) ltac:(lia) Hlt). lia.
Qed.

Lemma sstm_write_consistent ctx data size r ctx' :
  consistent ctx -> is_u32 size ->
  sstm_write ctx data size = Done (r, ctx') ->
  consistent ctx' /\ cap_size ctx' = cap_size ctx /\ (dist_ok ctx -> dist_ok ctx').
Proof.
  intros Hc Hs. unfold sstm_write.
  destruct (Z.eqb_spec size 0); [intros [= <- <-]; done|].
  destruct (Z.ltb_spec (free_size ctx) size); [intros [= <- <-]; done|].
  destruct (write_copy _ _ _ _ _) as [[ring' tail']|] eqn:Hw; [|discriminate].
  simpl. intros [= <- <-].
  pose proof Hc as Hc'. destruct Hc'. unfold is_u32 in *.
  apply write_copy_inv in Hw as (Hlen & Hpos & Htail); unfold is_u32; [|lia..].
  pose proof (consistent_cap_alloc ctx Hc Hpos) as Hcap.
  specialize (Htail ltac:(lia)).
  pose proof (Z.mod_pos_bound (tail_idx ctx + size) (cap_size ctx + 1) ltac:(lia)).
  split; [|split; [done|]].
  - split; simpl; unfold is_u32; rewrite ?u32_small by lia; try done; lia.
  - unfold dist_ok. simpl. intros Hd. subst tail'.
    rewrite u32_small by lia.
    rewrite Zminus_mod_idemp_l.
    replace (tail_idx ctx + size - head_idx ctx)
      with (tail_idx ctx - head_idx ctx + size) by lia.
    rewrite <- Zplus_mod_idemp_l, Hd. apply Z.mod_small. lia.
Qed.

Lemma sstm_read_consistent ctx data size cleanup r ctx' d :
  consistent ctx -> is_u32 size ->
  sstm_read ctx data size cleanup = Done (r, ctx', d) ->
  consistent ctx' /\ cap_size ctx' = cap_size ctx /\
  (cap_size ctx < 2 ^ 31 -> dist_ok ctx -> dist_ok ctx').
Proof.
  intros Hc Hs. unfold sstm_read.
  destruct (Z.eqb_spec size 0); [intros [= <- <- <-]; done|].
  destruct (Z.ltb_spec (fresh_size ctx) size); [intros [= <- <- <-]; done|].
  destruct (umod _ _) as [idx|]; [|discriminate]. simpl.
  destruct (match data with Some _ => _ | None => _ end) as [data'|];
    [|discriminate]. simpl.
  unfold is_u32 in *.
  pose proof (advance_cursor_consistent ctx size Hc ltac:(lia)) as Hc1.
  destruct cleanup.
  - destruct (sstm_clean _) as [[rc ctx2]|] eqn:Hcl; [|discriminate].
    simpl. intros [= <- <- <-].
    destruct (sstm_clean_consistent _ _ _ Hc1 Hcl) as [Hc2 Hcap2].
    split; [done|]. split; [done|]. intros Hcap Hd.
    by apply (sstm_clean_dist _ _ _ Hc1 Hd Hcap Hcl).
  - intros [= <- <- <-]. done.
Qed.

Lemma seek_abs_offs_range ctx offset whence :
  is_s32 offset -> is_s32 (seek_abs_offs ctx offset whence).
Proof.
  intros Ho. unfold is_s32. destruct whence; simpl; [done|apply s32_range..].
Qed.

Lemma sstm_seek_consistent ctx offset whence r ctx' :
  consistent ctx -> is_s32 offset ->
  sstm_seek ctx offset whence = Done (r, ctx') ->
  consistent ctx' /\ cap_size ctx' = cap_size ctx /\ (dist_ok ctx -> dist_ok ctx').
Proof.
  intros Hc Ho. unfold sstm_seek. cbv zeta.
  pose proof (seek_abs_offs_range ctx offset whence Ho) as Ha.
  unfold is_s32 in Ha.
  destruct (Z.ltb_spec (seek_abs_offs ctx offset whence) 0);
    [intros [= <- <-]; done|].
  rewrite (u32_small (seek_abs_offs ctx offset whence)) by lia.
  destruct (Z.ltb_spec (used_size ctx) (seek_abs_offs ctx offset whence));
    [intros [= <- <-]; done|].
  destruct (Z.eqb_spec (seek_abs_offs ctx offset whence) (seek_offs ctx));
    [intros [= <- <-]; done|].
  intros [= <- <-]. destruct Hc. unfold is_u32 in *.
  split; [|done].
  split; simpl; unfold is_u32; rewrite ?u32_small by lia; try done; lia.
Qed.

Lemma run_consistent ctx c r ctx' :
  consistent ctx -> call_ok c -> run c ctx = Done (r, ctx') ->
  consistent ctx' /\ cap_size ctx' = cap_size ctx /\
  (cap_size ctx < 2 ^ 31 -> dist_ok ctx -> dist_ok ctx').
Proof.
  intros Hc Hok. destruct c as [data size|data size cleanup|offset whence|];
    simpl in *.
  - intros Hr. destruct (sstm_write_consistent _ _ _ _ _ Hc Hok Hr) as (?&?&?).
    auto.
  - destruct (sstm_read _ _ _ _) as [[[rr ctx2] d]|] eqn:Hr; [|discriminate].
    simpl. intros [= <- <-]. by apply (sstm_read_consistent _ _ _ _ _ _ _ Hc Hok Hr).
  - intros Hr. destruct (sstm_seek_consistent _ _ _ _ _ Hc Hok Hr) as (?&?&?).
    auto.
  - intros Hr. destruct (sstm_clean_consistent _ _ _ Hc Hr) as [? ?].
    split; [done|]. split; [done|]. intros Hcap Hd.
    by apply (sstm_clean_dist _ _ _ Hc Hd Hcap Hr).
Qed.

Lemma reachable_consistent ctx :
  reachable ctx ->
  consistent ctx /\ (cap_size ctx < 2 ^ 31 -> dist_ok ctx).
Proof.
  induction 1 as [conf ring ctx Hconf Hring Hnew|ctx c r ctx' _ [IHc IHd] Hok Hrun].
  - destruct (sstm_new_consistent _ _ _ _ Hconf Hring Hnew) as (?&?&?). auto.
  - destruct (run_consistent _ _ _ _ IHc Hok Hrun) as (Hc' & Hcap & Hd').
    split; [done|]. rewrite Hcap. auto.
Qed.

Lemma reachable_invariants ctx :
  reachable ctx -> cap_size ctx < 2 ^ 31 -> invariants ctx.
Proof.
  intros Hr Hcap. destruct (reachable_consistent ctx Hr) as [Hc Hd].
  apply invariants_intro; auto.
Qed.

(** ** What the calls return on a consistent stream *)

Lemma byte_at_app (a b : block) j :
  0 <= j ->
  byte_at (a ++ b) j =
  if decide (j < zlen a) then byte_at a j else byte_at b (j - zlen a).
Proof.
  intros Hj. unfold byte_at, zlen. case_decide.
  - apply lookup_total_app_l. lia.
  - rewrite lookup_total_app_r by lia. f_equal. lia.
Qed.

Lemma byte_at_drop (b : block) n j :
  0 <= n -> 0 <= j -> byte_at (drop (Z.to_nat n) b) j = byte_at b (n + j).
Proof.
  intros Hn Hj. unfold byte_at. rewrite lookup_total_drop. f_equal. lia.
Qed.

Lemma byte_at_take (b : block) n j :
  0 <= j < n -> byte_at (take (Z.to_nat n) b) j = byte_at b j.
Proof.
  intros Hj. unfold byte_at. apply lookup_total_take_lt. lia.
Qed.

Lemma sstm_clean_eval ctx :
  consistent ctx -> cap_size ctx + 1 < 2 ^ 32 -> stale_size ctx <> 0 ->
  sstm_clean ctx =
  Done (SSTM_OK,
        {| cap_size := cap_size ctx; alloc_size := alloc_size ctx;
           used_size := used_size ctx - stale_size ctx;
           stale_size := 0;
           fresh_size := fresh_size ctx;
           free_size := free_size ctx + stale_size ctx;
           ring_buff := ring_buff ctx;
           head_idx := u32 (head_idx ctx + stale_size ctx) mod (cap_size ctx + 1);
           tail_idx := tail_idx ctx;
           seek_offs := 0 |}).
Proof.
  intros [] Hcap Hst. unfold is_u32 in *. unfold sstm_clean. cbv zeta.
  destruct (Z.eqb_spec (stale_size ctx) 0); [done|].
  rewrite (u32_small (cap_size ctx + 1)) by lia.
  unfold umod. destruct (Z.eqb_spec (cap_size ctx + 1) 0); [lia|].
  simpl. rewrite (u32_small (used_size ctx - _)) by lia.
  rewrite (u32_small (free_size ctx + _)) by lia. done.
Qed.

Lemma sstm_write_eval ctx data size :
  consistent ctx -> cap_size ctx + 8 < 2 ^ 32 ->
  1 <= size <= free_size ctx ->
  (forall src, data = Some src -> size <= zlen src) ->
  exists ring',
    sstm_write ctx data size =
    Done (SSTM_OK,
          {| cap_size := cap_size ctx; alloc_size := alloc_size ctx;
             used_size := used_size ctx + size;
             stale_size := stale_size ctx;
             fresh_size := fresh_size ctx + size;
             free_size := free_size ctx - size;
             ring_buff := ring';
             head_idx := head_idx ctx;
             tail_idx := (tail_idx ctx + size) mod (cap_size ctx + 1);
             seek_offs := seek_offs ctx |}) /\
    zlen ring' = zlen (ring_buff ctx) /\
    forall p, 0 <= p < cap_size ctx + 1 ->
      byte_at ring' p =
      if decide ((p - tail_idx ctx) mod (cap_size ctx + 1) < size)
      then src_byte data ((p - tail_idx ctx) mod (cap_size ctx + 1))
      else byte_at (ring_buff ctx) p.
Proof.
  intros Hc Hcap Hs Hsrc.
  pose proof (consistent_ring_size ctx Hc Hcap) as Hring.
  destruct Hc. unfold is_u32 in *.
  destruct (write_copy_spec (ring_buff ctx) (cap_size ctx) (tail_idx ctx) size data)
    as (ring' & Hw & Hlen & Hat); [lia..|done|].
  exists ring'. split; [|done].
  unfold sstm_write.
  destruct (Z.eqb_spec size 0); [lia|].
  destruct (Z.ltb_spec (free_size ctx) size); [lia|].
  rewrite Hw. simpl. rewrite !u32_small by lia. done.
Qed.

Lemma sstm_read_eval ctx data size cleanup :
  consistent ctx -> cap_size ctx + 8 < 2 ^ 32 ->
  1 <= size <= fresh_size ctx ->
  (forall dst, data = Some dst -> size <= zlen dst) ->
  exists ctx',
    sstm_read ctx data size cleanup =
    Done (SSTM_OK, ctx',
          (fun dst => read_window ctx size ++ drop (Z.to_nat size) dst) <$> data) /\
    if cleanup then sstm_clean (advance_cursor ctx size) = Done (SSTM_OK, ctx')
    else ctx' = advance_cursor ctx size.
Proof.
  intros Hc Hcap Hs Hdst.
  pose proof (consistent_ring_size ctx Hc Hcap) as Hring.
  pose proof (advance_cursor_consistent ctx size Hc ltac:(lia)) as Hc1.
  pose proof Hc as Hc'. destruct Hc'. unfold is_u32 in *.
  unfold sstm_read.
  destruct (Z.eqb_spec size 0); [lia|].
  destruct (Z.ltb_spec (fresh_size ctx) size); [lia|].
  rewrite (u32_small (cap_size ctx + 1)) by lia.
  unfold umod. destruct (Z.eqb_spec (cap_size ctx + 1) 0); [lia|]. simpl.
  set (idx := u32 (head_idx ctx + seek_offs ctx) mod (cap_size ctx + 1)).
  pose proof (Z.mod_pos_bound (u32 (head_idx ctx + seek_offs ctx))
                (cap_size ctx + 1) ltac:(lia)) as Hidx. fold idx in Hidx.
  assert (match data with
          | Some dst =>
              d ← read_copy (ring_buff ctx) (cap_size ctx) idx size dst;
              Done (Some d)
          | None => Done None
          end =
          Done ((fun dst => read_window ctx size ++ drop (Z.to_nat size) dst)
                  <$> data)) as ->.
  { destruct data as [dst|]; [|done]. specialize (Hdst dst eq_refl).
    destruct (read_copy_spec (ring_buff ctx) (cap_size ctx) idx size dst)
      as (d & -> & Hlen & Hat); [lia..|].
    assert (zlen (read_window ctx size) = size) as Hrw
      by (apply ring_slice_length; lia).
    simpl. do 2 f_equal. apply block_ext.
    - unfold zlen in *. rewrite length_app, length_drop. lia.
    - intros j Hj. rewrite Hat, byte_at_app, Hrw by lia.
      case_decide.
      + unfold read_window. rewrite ring_slice_at by lia.
        subst idx. by rewrite Zplus_mod_idemp_l.
      + rewrite byte_at_drop by lia. f_equal. lia. }
  simpl. destruct cleanup.
  - assert (stale_size (advance_cursor ctx size) <> 0) as Hne.
    { simpl. rewrite u32_small by lia. lia. }
    pose proof (sstm_clean_eval _ Hc1 ltac:(simpl; lia) Hne) as Hcl.
    rewrite Hcl. simpl. eexists. split; reflexivity.
  - eexists. split; reflexivity.
Qed.

Lemma run_total ctx c :
  consistent ctx -> cap_size ctx + 8 < 2 ^ 32 -> call_valid c ->
  exists r ctx', run c ctx = Done (r, ctx').
Proof.
  intros Hc Hcap [Hok Hval].
  destruct c as [data size|data size cleanup|offset whence|]; simpl in *.
  - unfold is_u32 in Hok.
    destruct (Z.eq_dec size 0) as [->|];
      [unfold sstm_write; simpl; eauto|].
    destruct (Z.lt_ge_cases (free_size ctx) size).
    + unfold sstm_write. destruct (Z.eqb_spec size 0); [lia|].
      destruct (Z.ltb_spec (free_size ctx) size); [eauto|lia].
    + destruct (sstm_write_eval ctx data size) as (ring' & -> & _); eauto; [lia|].
      intros src ->. done.
  - unfold is_u32 in Hok.
    destruct (Z.eq_dec size 0) as [->|];
      [unfold sstm_read; simpl; eauto|].
    destruct (Z.lt_ge_cases (fresh_size ctx) size).
    + unfold sstm_read. destruct (Z.eqb_spec size 0); [lia|].
      destruct (Z.ltb_spec (fresh_size ctx) size); [simpl; eauto|lia].
    + destruct (sstm_read_eval ctx data size cleanup) as (ctx' & -> & _);
        simpl; eauto; [lia|].
      intros dst ->. done.
  - unfold sstm_seek. cbv zeta.
    destruct (_ <? _); [eauto|]. destruct (_ <? _); [eauto|].
    destruct (_ =? _); eauto.
  - destruct (Z.eq_dec (stale_size ctx) 0) as [He|Hne].
    + unfold sstm_clean. rewrite He. simpl. eauto.
    + rewrite sstm_clean_eval by (done || lia). eauto.
Qed.

(** ** Reachability of the concrete streams *)

Lemma reachable_run_all cs ctx ctx' :
  reachable ctx -> Forall call_ok cs -> run_all cs ctx = Done ctx' ->
  reachable ctx'.
Proof.
  intros Hr Hok. revert ctx Hr. induction Hok as [|c cs Hc _ IH]; intros ctx Hr.
  - intros [= <-]. done.
  - simpl. destruct (run c ctx) as [[r ctx1]|] eqn:Hrun; [|discriminate].
    simpl. apply IH. by apply (reachable_step ctx c r ctx1).
Qed.

Lemma default_stream_reachable : reachable default_stream.
Proof.
  apply (reachable_new None (replicate 1032 x00)); [done| |]; by vm_compute.
Qed.

Lemma wrapped_stream_reachable : reachable wrapped_stream.
Proof.
  apply (reachable_new (Some {| conf_cap_size := 4294967288 |}) []);
    [unfold conf_ok, is_u32; simpl; lia| |]; by vm_compute.
Qed.

Lemma widest_stream_reachable : reachable widest_stream.
Proof.
  apply (reachable_new (Some {| conf_cap_size := 4294967295 |}) []);
    [unfold conf_ok, is_u32; simpl; lia| |]; by vm_compute.
Qed.

(** ** Properties of the operations *)

(** C10: a read of size 0 returns SSTM_OK and hands back the context and
    the destination exactly as they were, whatever the cleanup flag and
    whatever the stale size: the early return comes before the cleanup
    step, so nothing is reclaimed. *)
Theorem sstm_read_zero_size (ctx : sstm_ctx) (data : option block) (cleanup : bool) :
  sstm_read ctx data 0 cleanup = Done (SSTM_OK, ctx, data).
Proof. reflexivity. Qed.

(** C5: when write returns SSTM_ERR_NO_SPACE, read returns SSTM_ERR_NO_DATA
    or seek returns SSTM_ERR_BAD_OFFS, the context after the call is the
    context before it: counters, indices, cursor and ring buffer. *)
Theorem error_leaves_stream_unchanged (ctx ctx' : sstm_ctx) :
  (exists data size,
      sstm_write ctx data size = Done (SSTM_ERR_NO_SPACE, ctx')) \/
  (exists data size cleanup data',
      sstm_read ctx data size cleanup = Done (SSTM_ERR_NO_DATA, ctx', data')) \/
  (exists offset whence,
      sstm_seek ctx offset whence = Done (SSTM_ERR_BAD_OFFS, ctx')) ->
  ctx' = ctx.
Proof.
  intros [(data & size & H)|[(data & size & cleanup & data' & H)|(offset & whence & H)]].
  - unfold sstm_write in H.
    destruct (size =? 0); [discriminate|].
    destruct (free_size ctx <? size); [congruence|].
    destruct (write_copy _ _ _ _ _); discriminate.
  - unfold sstm_read in H.
    destruct (size =? 0); [discriminate|].
    destruct (fresh_size ctx <? size); [congruence|].
    destruct (umod _ _); [|discriminate]. simpl in H.
    destruct (match data with Some _ => _ | None => _ end); [|discriminate].
    simpl in H. destruct cleanup; [|discriminate].
    destruct (sstm_clean _); discriminate.
  - unfold sstm_seek in H. cbv zeta in H.
    destruct (_ <? _); [congruence|].
    destruct (_ <? _); [congruence|].
    destruct (_ =? _); discriminate.
Qed.

Lemma error_leaves_stream_unchanged_witness :
  sstm_write default_stream None 2000 = Done (SSTM_ERR_NO_SPACE, default_stream) /\
  default_stream = default_stream.
Proof.
  split; [reflexivity|].
  apply (error_leaves_stream_unchanged default_stream default_stream).
  left. exists None, 2000. reflexivity.
Defined.

(** C9: when both allocations succeed, [sstm_new] produces a stream whose
    capacity is 1024 without a configuration, the requested capacity when
    that is at least 128, and 1024 (not 128) when it is below 128. *)
Theorem sstm_new_capacity (ring : block) :
  (exists ctx, sstm_new None (Some ring) true = Done (SSTM_OK, Some ctx) /\
               cap_size ctx = 1024) /\
  (forall c, is_u32 c -> 128 <= c ->
     exists ctx,
       sstm_new (Some {| conf_cap_size := c |}) (Some ring) true
       = Done (SSTM_OK, Some ctx) /\
       cap_size ctx = c) /\
  (forall c, is_u32 c -> c < 128 ->
     exists ctx,
       sstm_new (Some {| conf_cap_size := c |}) (Some ring) true
       = Done (SSTM_OK, Some ctx) /\
       cap_size ctx = 1024).
Proof.
  split; [|split].
  - eexists. split; reflexivity.
  - intros c _ Hc. eexists. split; [reflexivity|]. simpl.
    unfold SSTM_CAP_SIZE_MIN. destruct (Z.ltb_spec c 128); [lia|done].
  - intros c _ Hc. eexists. split; [reflexivity|]. simpl.
    unfold SSTM_CAP_SIZE_MIN. destruct (Z.ltb_spec c 128); [done|lia].
Qed.

Lemma sstm_new_capacity_witness :
  (exists ctx,
      sstm_new (Some {| conf_cap_size := 4096 |}) (Some []) true
      = Done (SSTM_OK, Some ctx) /\ cap_size ctx = 4096) /\
  (exists ctx,
      sstm_new (Some {| conf_cap_size := 100 |}) (Some []) true
      = Done (SSTM_OK, Some ctx) /\ cap_size ctx = 1024).
Proof.
  destruct (sstm_new_capacity []) as (_ & Hge & Hlt). split.
  - apply (Hge 4096); unfold is_u32; lia.
  - apply (Hlt 100); unfold is_u32; lia.
Defined.

(** When the ring buffer cannot be allocated, the call returns
    SSTM_ERR_NO_MEM and stores no context. *)
Lemma sstm_new_ring_alloc_failure conf m_ctx :
  sstm_new conf None m_ctx = Done (SSTM_ERR_NO_MEM, None).
Proof. reflexivity. Qed.

(** C2: when the ring buffer is allocated and the context is not, the code
    tests [ring_buff] a second time instead of [new_ctx], skips the
    release, and stores through the null context pointer: the call does
    not return SSTM_ERR_NO_MEM. *)
Theorem sstm_new_ctx_alloc_failure (conf : option sstm_conf) (ring : block) :
  sstm_new conf (Some ring) false = Undef /\
  sstm_new conf (Some ring) false <> Done (SSTM_ERR_NO_MEM, None).
Proof. split; [reflexivity|discriminate]. Qed.

(** Where the allocation size did not wrap around (capacity at most
    2^32 - 9), a write of [size] bytes with 0 < size <= free on a
    reachable stream succeeds; the tail becomes
    (tail + size) mod (capacity + 1), used and fresh grow by [size], free
    shrinks by [size], and stale, cursor and head are unchanged.  Both the
    single copy and the split copy are covered. *)
Theorem sstm_write_success (ctx : sstm_ctx) (data : option block) (size : Z) :
  reachable ctx ->
  cap_size ctx + 8 < 2 ^ 32 ->
  0 < size <= free_size ctx ->
  (forall src, data = Some src -> size <= zlen src) ->
  exists ctx',
    sstm_write ctx data size = Done (SSTM_OK, ctx') /\
    tail_idx ctx' = (tail_idx ctx + size) mod (cap_size ctx + 1) /\
    used_size ctx' = used_size ctx + size /\
    fresh_size ctx' = fresh_size ctx + size /\
    free_size ctx' = free_size ctx - size /\
    stale_size ctx' = stale_size ctx /\
    seek_offs ctx' = seek_offs ctx /\
    head_idx ctx' = head_idx ctx /\
    cap_size ctx' = cap_size ctx.
Proof.
  intros Hr Hcap Hs Hsrc.
  destruct (reachable_consistent ctx Hr) as [Hc _].
  destruct (sstm_write_eval ctx data size Hc Hcap ltac:(lia) Hsrc)
    as (ring' & -> & _).
  eexists. split; [reflexivity|]. simpl. repeat split; reflexivity.
Qed.

Lemma sstm_write_success_witness :
  exists ctx',
    sstm_write default_stream (Some [x01; x02; x03]) 3 = Done (SSTM_OK, ctx') /\
    tail_idx ctx' = (tail_idx default_stream + 3) mod (cap_size default_stream + 1) /\
    used_size ctx' = used_size default_stream + 3 /\
    fresh_size ctx' = fresh_size default_stream + 3 /\
    free_size ctx' = free_size default_stream - 3 /\
    stale_size ctx' = stale_size default_stream /\
    seek_offs ctx' = seek_offs default_stream /\
    head_idx ctx' = head_idx default_stream /\
    cap_size ctx' = cap_size default_stream.
Proof.
  apply (sstm_write_success default_stream (Some [x01; x02; x03]) 3).
  - exact default_stream_reachable.
  - simpl. lia.
  - simpl. lia.
  - intros src [= <-]. unfold zlen. simpl. lia.
Defined.

(** On a stream whose allocation size wrapped around to 0 (capacity from
    2^32 - 8 on), no write of one byte or more within the free size
    returns: it stores outside the ring buffer. *)
Lemma sstm_write_wrapped_undef ctx data size :
  consistent ctx ->
  2 ^ 32 <= cap_size ctx + 8 ->
  0 < size <= free_size ctx ->
  sstm_write ctx data size = Undef.
Proof.
  intros Hc Hcap Hs. pose proof Hc as Hc'. destruct Hc'. unfold is_u32 in *.
  unfold sstm_write.
  destruct (Z.eqb_spec size 0); [lia|].
  destruct (Z.ltb_spec (free_size ctx) size); [lia|].
  destruct (write_copy _ _ _ _ _) as [[ring' tail']|] eqn:Hw; [|done].
  apply write_copy_inv in Hw as (_ & Hpos & _); unfold is_u32; [|lia..].
  pose proof (consistent_cap_alloc ctx Hc Hpos). lia.
Qed.

(** C6: the code breaks the claim where [sstm_new] let the allocation size
    wrap around.  The stream created with capacity 2^32 - 8 is reachable,
    its allocation size is 0 and its ring buffer is the empty block; a
    write of 2^20 bytes is within its free size, and instead of succeeding
    it stores 2^20 bytes outside the ring buffer. *)
Theorem sstm_write_wrapped_alloc :
  reachable wrapped_stream /\
  new_alloc_size (cap_size wrapped_stream) = 0 /\
  zlen (ring_buff wrapped_stream) = 0 /\
  0 < 1048576 <= free_size wrapped_stream /\
  sstm_write wrapped_stream None 1048576 = Undef.
Proof.
  split; [exact wrapped_stream_reachable|]. split; [reflexivity|].
  split; [reflexivity|]. split; [simpl; lia|].
  apply sstm_write_wrapped_undef.
  - apply reachable_consistent. exact wrapped_stream_reachable.
  - simpl. lia.
  - simpl. lia.
Qed.

(** The target of a seek on a stream of capacity below 2^31: either the
    code computes it exactly, or the signed sum wrapped to a negative
    number and the target lies beyond the used size. *)
Lemma seek_abs_offs_target ctx offset whence :
  consistent ctx -> cap_size ctx < 2 ^ 31 -> is_s32 offset ->
  seek_abs_offs ctx offset whence = seek_target ctx offset whence \/
  (seek_abs_offs ctx offset whence < 0 /\
   used_size ctx < seek_target ctx offset whence).
Proof.
  intros [] Hcap Ho. unfold is_u32, is_s32 in *.
  destruct whence; simpl; [by left| |].
  - rewrite (s32_small (seek_offs ctx)) by lia.
    destruct (Z.lt_ge_cases (seek_offs ctx + offset) (2 ^ 31)).
    + left. apply s32_small. lia.
    + right. rewrite s32_high by lia. lia.
  - rewrite (s32_small (used_size ctx)) by lia.
    destruct (Z.lt_ge_cases (used_size ctx + offset) (2 ^ 31)).
    + left. apply s32_small. lia.
    + right. rewrite s32_high by lia. lia.
Qed.

(** C7, as amended: on a reachable stream whose capacity is below 2^31,
    for every signed 32-bit offset and every whence, with the target
    [offset], [cursor + offset] or [used + offset], seek returns
    SSTM_ERR_BAD_OFFS exactly when the target is negative or beyond used;
    it succeeds without any change when the target is the cursor; and
    otherwise it succeeds with cursor = stale = target and
    fresh = used - target, all else unchanged. *)
Theorem sstm_seek_target (ctx : sstm_ctx) (offset : Z) (whence : sstm_whence) :
  reachable ctx ->
  cap_size ctx < 2 ^ 31 ->
  is_s32 offset ->
  let target := seek_target ctx offset whence in
  exists r ctx',
    sstm_seek ctx offset whence = Done (r, ctx') /\
    (r = SSTM_ERR_BAD_OFFS <-> target < 0 \/ used_size ctx < target) /\
    (r = SSTM_ERR_BAD_OFFS \/ r = SSTM_OK) /\
    (target = seek_offs ctx -> r = SSTM_OK /\ ctx' = ctx) /\
    (r = SSTM_OK -> target <> seek_offs ctx ->
       seek_offs ctx' = target /\
       stale_size ctx' = target /\
       fresh_size ctx' = used_size ctx - target /\
       used_size ctx' = used_size ctx /\
       free_size ctx' = free_size ctx /\
       head_idx ctx' = head_idx ctx /\
       tail_idx ctx' = tail_idx ctx /\
       ring_buff ctx' = ring_buff ctx /\
       cap_size ctx' = cap_size ctx).
Proof.
  intros Hr Hcap Ho target.
  destruct (reachable_consistent ctx Hr) as [Hc _].
  pose proof (seek_abs_offs_target ctx offset whence Hc Hcap Ho) as Habs.
  pose proof (seek_abs_offs_range ctx offset whence Ho) as Hrange.
  fold target in Habs. destruct Hc. unfold is_u32, is_s32 in *.
  unfold sstm_seek. cbv zeta.
  unfold SSTM_ERR_BAD_OFFS, SSTM_OK.
  destruct (Z.ltb_spec (seek_abs_offs ctx offset whence) 0) as [Hneg|Hpos].
  { do 2 eexists. split; [reflexivity|]. repeat split; try lia; auto. }
  destruct Habs as [Heq|[? ?]]; [|lia].
  rewrite u32_small by lia. rewrite Heq in *.
  destruct (Z.ltb_spec (used_size ctx) target).
  { do 2 eexists. split; [reflexivity|]. repeat split; try lia; auto. }
  destruct (Z.eqb_spec target (seek_offs ctx)).
  { do 2 eexists. split; [reflexivity|]. repeat split; try lia; auto. }
  do 2 eexists. split; [reflexivity|]. simpl.
  rewrite u32_small by lia.
  repeat split; try lia; auto.
Qed.

Lemma sstm_seek_target_witness :
  exists r ctx',
    sstm_seek default_stream (-1) SSTM_SEEK_END = Done (r, ctx') /\
    r = SSTM_ERR_BAD_OFFS.
Proof.
  destruct (sstm_seek_target default_stream (-1) SSTM_SEEK_END)
    as (r & ctx' & Hs & Hbad & _).
  - exact default_stream_reachable.
  - simpl. lia.
  - unfold is_s32. lia.
  - exists r, ctx'. split; [exact Hs|]. apply Hbad. left. simpl. lia.
Defined.

(** C8, as amended: on a reachable stream whose capacity is below 2^31, a
    read of N bytes, 0 < N <= fresh, with the cleanup flag set succeeds;
    afterwards stale = 0 and cursor = 0, head has advanced by the
    reclaimed amount, old stale + N, modulo capacity + 1, and free is
    old stale + N higher than after the same read without cleanup: N
    higher exactly when nothing was stale before the read. *)
Theorem sstm_read_cleanup (ctx : sstm_ctx) (data : option block) (n : Z) :
  reachable ctx ->
  cap_size ctx < 2 ^ 31 ->
  0 < n <= fresh_size ctx ->
  (forall dst, data = Some dst -> n <= zlen dst) ->
  exists ctx1 ctx0 out,
    sstm_read ctx data n true = Done (SSTM_OK, ctx1, out) /\
    sstm_read ctx data n false = Done (SSTM_OK, ctx0, out) /\
    stale_size ctx1 = 0 /\
    seek_offs ctx1 = 0 /\
    head_idx ctx1 = (head_idx ctx + (stale_size ctx + n)) mod (cap_size ctx + 1) /\
    stale_size ctx0 = stale_size ctx + n /\
    free_size ctx1 = free_size ctx0 + (stale_size ctx + n) /\
    (stale_size ctx = 0 -> free_size ctx1 = free_size ctx0 + n).
Proof.
  intros Hr Hcap Hn Hdst.
  destruct (reachable_consistent ctx Hr) as [Hc _].
  destruct (sstm_read_eval ctx data n true Hc ltac:(lia) ltac:(lia) Hdst)
    as (ctx1 & -> & Hcl).
  destruct (sstm_read_eval ctx data n false Hc ltac:(lia) ltac:(lia) Hdst)
    as (ctx0 & -> & ->).
  pose proof (advance_cursor_consistent ctx n Hc ltac:(lia)) as Hc1.
  destruct Hc. unfold is_u32 in *.
  rewrite sstm_clean_eval in Hcl; [|done|simpl; lia|simpl; rewrite u32_small; lia].
  injection Hcl as <-.
  do 3 eexists. split; [reflexivity|]. split; [reflexivity|]. simpl.
  rewrite !u32_small by (rewrite ?u32_small; lia).
  repeat split; lia.
Qed.

Lemma sstm_read_cleanup_witness :
  exists ctx1 ctx0 out,
    sstm_read {| cap_size := 1024; alloc_size := 1032;
                 used_size := 10; stale_size := 0; fresh_size := 10;
                 free_size := 1014; ring_buff := replicate 1032 x00;
                 head_idx := 0; tail_idx := 10; seek_offs := 0 |}
      None 4 true = Done (SSTM_OK, ctx1, out) /\
    sstm_read {| cap_size := 1024; alloc_size := 1032;
                 used_size := 10; stale_size := 0; fresh_size := 10;
                 free_size := 1014; ring_buff := replicate 1032 x00;
                 head_idx := 0; tail_idx := 10; seek_offs := 0 |}
      None 4 false = Done (SSTM_OK, ctx0, out) /\
    free_size ctx1 = free_size ctx0 + 4.
Proof.
  destruct (sstm_read_cleanup
              {| cap_size := 1024; alloc_size := 1032;
                 used_size := 10; stale_size := 0; fresh_size := 10;
                 free_size := 1014; ring_buff := replicate 1032 x00;
                 head_idx := 0; tail_idx := 10; seek_offs := 0 |} None 4)
    as (ctx1 & ctx0 & out & H1 & H0 & _ & _ & _ & _ & _ & Hfree).
  - apply (reachable_run_all [CallWrite None 10] default_stream).
    + exact default_stream_reachable.
    + repeat constructor; unfold is_u32; lia.
    + vm_compute. reflexivity.
  - simpl. lia.
  - simpl. lia.
  - discriminate.
  - exists ctx1, ctx0, out. split; [exact H1|]. split; [exact H0|].
    apply Hfree. reflexivity.
Defined.

(** C8 as stated fails: after writing 10 bytes and reading 4 of them
    without cleanup, a read of 3 bytes with cleanup leaves free 7 higher,
    not 3 higher, than the same read without cleanup. *)
Lemma sstm_read_cleanup_counterexample :
  exists ctx ctx1 ctx0,
    run_all [CallWrite None 10; CallRead None 4 false] default_stream = Done ctx /\
    reachable ctx /\
    0 < 3 <= fresh_size ctx /\
    sstm_read ctx None 3 true = Done (SSTM_OK, ctx1, None) /\
    sstm_read ctx None 3 false = Done (SSTM_OK, ctx0, None) /\
    free_size ctx0 = 1014 /\
    free_size ctx1 = 1021 /\
    free_size ctx1 <> free_size ctx0 + 3.
Proof.
  do 3 eexists. split; [vm_compute; reflexivity|].
  split.
  { apply (reachable_run_all [CallWrite None 10; CallRead None 4 false]
             default_stream).
    - exact default_stream_reachable.
    - repeat constructor; unfold is_u32; lia.
    - vm_compute. reflexivity. }
  split; [simpl; lia|].
  split; [vm_compute; reflexivity|].
  split; [vm_compute; reflexivity|].
  simpl. lia.
Qed.

(** C1, as amended: on a reachable stream whose capacity is below 2^31,
    each of write, read, seek and clean, called with a buffer that has
    room for [size] bytes or with NULL, returns, and the five invariants
    hold of the stream it leaves, on the success path, on the no-op path
    and on the error path alike. *)
Theorem invariants_after_call (ctx : sstm_ctx) (c : call) :
  reachable ctx ->
  cap_size ctx < 2 ^ 31 ->
  call_valid c ->
  exists r ctx',
    run c ctx = Done (r, ctx') /\
    invariants ctx' /\
    cap_size ctx' = cap_size ctx.
Proof.
  intros Hr Hcap Hv.
  destruct (reachable_consistent ctx Hr) as [Hc Hd].
  destruct (run_total ctx c Hc ltac:(lia) Hv) as (r & ctx' & Hrun).
  exists r, ctx'. split; [done|].
  destruct (run_consistent ctx c r ctx' Hc (proj1 Hv) Hrun) as (Hc' & Hcap' & Hd').
  split; [|done]. apply invariants_intro; auto.
Qed.

Lemma invariants_after_call_witness :
  exists r ctx',
    run (CallWrite (Some [x01; x02]) 2) default_stream = Done (r, ctx') /\
    invariants ctx' /\
    cap_size ctx' = cap_size default_stream.
Proof.
  apply (invariants_after_call default_stream (CallWrite (Some [x01; x02]) 2)).
  - exact default_stream_reachable.
  - simpl. lia.
  - split; [unfold call_ok, is_u32; lia|]. unfold zlen. simpl. lia.
Defined.

Lemma zlen_nil_inv (b : block) : zlen b = 0 -> b = [].
Proof. unfold zlen. destruct b; [done|simpl; lia]. Qed.

Lemma zlen_to_nat (b : block) : Z.to_nat (zlen b) = length b.
Proof. unfold zlen. lia. Qed.

(** On a stream of capacity below 2^31 that satisfies the invariants, the
    window a read copies out after a write is the old fresh region
    followed by the bytes written. *)
Lemma read_window_after_write ctx ring' bytes n :
  consistent ctx -> dist_ok ctx -> cap_size ctx < 2 ^ 31 ->
  n = zlen bytes -> 1 <= n <= free_size ctx ->
  (forall p, 0 <= p < cap_size ctx + 1 ->
     byte_at ring' p =
     if decide ((p - tail_idx ctx) mod (cap_size ctx + 1) < n)
     then src_byte (Some bytes) ((p - tail_idx ctx) mod (cap_size ctx + 1))
     else byte_at (ring_buff ctx) p) ->
  ring_slice ring' (cap_size ctx + 1) (head_idx ctx + seek_offs ctx) n
  = take (Z.to_nat n) (fresh_bytes ctx ++ bytes).
Proof.
  intros Hc Hd Hcap Hn Hs Hat. destruct Hc. unfold is_u32, dist_ok in *.
  assert (zlen (fresh_bytes ctx) = fresh_size ctx) as Hfl
    by (apply ring_slice_length; lia).
  apply block_ext.
  - rewrite ring_slice_length by lia. unfold zlen in *.
    rewrite length_take, length_app. lia.
  - rewrite ring_slice_length by lia. intros j Hj.
    rewrite ring_slice_at by lia.
    rewrite byte_at_take, byte_at_app, Hfl by lia.
    set (m := cap_size ctx + 1) in *.
    pose proof (Z.mod_pos_bound (head_idx ctx + seek_offs ctx + j) m ltac:(lia)).
    rewrite Hat by lia.
    assert (((head_idx ctx + seek_offs ctx + j) mod m - tail_idx ctx) mod m
            = (j - fresh_size ctx) mod m) as ->.
    { rewrite Zminus_mod_idemp_l.
      replace (head_idx ctx + seek_offs ctx + j - tail_idx ctx)
        with (seek_offs ctx + j - (tail_idx ctx - head_idx ctx)) by lia.
      rewrite <- Zminus_mod_idemp_r, Hd. f_equal. lia. }
    destruct (decide (j < fresh_size ctx)).
    + rewrite mod_below by lia. case_decide; [lia|].
      unfold fresh_bytes. rewrite ring_slice_at by lia. done.
    + rewrite Z.mod_small by lia. case_decide; [|lia]. done.
Qed.

(** C3, as amended: on a reachable stream whose capacity is below 2^31,
    writing [bytes], with len (bytes) <= free, and then reading
    len (bytes) bytes succeeds and delivers the first len (bytes) of the
    fresh bytes from the cursor on, which are the old fresh region
    followed by [bytes]; the rest of the destination is untouched.  When
    nothing was fresh before the write, [bytes] itself is delivered, and
    without cleanup stale has grown by len (bytes) and fresh is 0.  The
    single copy and the split copy are both covered. *)
Theorem write_then_read (ctx : sstm_ctx) (bytes dst : block) (cleanup : bool) :
  reachable ctx ->
  cap_size ctx < 2 ^ 31 ->
  zlen bytes <= free_size ctx ->
  zlen bytes <= zlen dst ->
  exists ctx1 ctx2 out,
    sstm_write ctx (Some bytes) (zlen bytes) = Done (SSTM_OK, ctx1) /\
    sstm_read ctx1 (Some dst) (zlen bytes) cleanup = Done (SSTM_OK, ctx2, Some out) /\
    take (length bytes) out = take (length bytes) (fresh_bytes ctx ++ bytes) /\
    drop (length bytes) out = drop (length bytes) dst /\
    (fresh_size ctx = 0 ->
       take (length bytes) out = bytes /\
       (cleanup = false ->
          stale_size ctx2 = stale_size ctx + zlen bytes /\
          fresh_size ctx2 = 0)).
Proof.
  intros Hr Hcap Hfree Hdst.
  destruct (reachable_consistent ctx Hr) as [Hc Hd]. specialize (Hd Hcap).
  assert (zlen (fresh_bytes ctx) = fresh_size ctx) as Hfl
    by (apply ring_slice_length; destruct Hc; lia).
  destruct (Z.eq_dec (zlen bytes) 0) as [Hz|Hnz].
  { rewrite Hz. apply zlen_nil_inv in Hz. subst bytes.
    exists ctx, ctx, dst. simpl. rewrite take_0, drop_0, app_nil_r.
    repeat split; try done. lia. }
  assert (1 <= zlen bytes) as Hpos by (unfold zlen in *; lia).
  destruct (sstm_write_eval ctx (Some bytes) (zlen bytes) Hc ltac:(lia) ltac:(lia))
    as (ring' & Hw & Hlen & Hat); [by intros src [= <-]|].
  match type of Hw with _ = Done (_, ?s) => set (ctx1 := s) in * end.
  assert (consistent ctx1) as Hc1.
  { apply (sstm_write_consistent ctx (Some bytes) (zlen bytes) SSTM_OK ctx1);
      [done| |done].
    destruct Hc. unfold is_u32 in *. lia. }
  destruct (sstm_read_eval ctx1 (Some dst) (zlen bytes) cleanup Hc1)
    as (ctx2 & Hrd & Hctx2); [simpl; lia|simpl; destruct Hc; lia|by intros d [= <-]|].
  exists ctx1, ctx2. eexists. split; [done|]. split; [exact Hrd|].
  assert (read_window ctx1 (zlen bytes)
          = take (length bytes) (fresh_bytes ctx ++ bytes)) as Hwin.
  { unfold read_window. simpl.
    rewrite u32_small by (destruct Hc; unfold is_u32 in *; lia).
    rewrite <- zlen_to_nat.
    apply read_window_after_write; (done || lia). }
  assert (length (read_window ctx1 (zlen bytes)) = length bytes) as Hwl.
  { pose proof (ring_slice_length (ring_buff ctx1) (cap_size ctx1 + 1)
                  (u32 (head_idx ctx1 + seek_offs ctx1)) (zlen bytes) ltac:(lia)) as Hl.
    apply Nat2Z.inj. exact Hl. }
  rewrite zlen_to_nat.
  split; [by rewrite take_app_length'|].
  split; [by rewrite drop_app_length'|].
  intros Hf0. split.
  - rewrite take_app_length' by done. rewrite Hwin.
    rewrite Hf0 in Hfl. apply zlen_nil_inv in Hfl. rewrite Hfl. simpl.
    apply take_ge. lia.
  - intros ->. subst ctx2. simpl. destruct Hc. unfold is_u32 in *.
    rewrite !u32_small by lia. lia.
Qed.

Lemma write_then_read_witness :
  exists ctx1 ctx2 out,
    sstm_write default_stream (Some [x61; x62; x63]) 3 = Done (SSTM_OK, ctx1) /\
    sstm_read ctx1 (Some [x00; x00; x00; x00]) 3 false
    = Done (SSTM_OK, ctx2, Some out) /\
    take 3 out = [x61; x62; x63].
Proof.
  destruct (write_then_read default_stream [x61; x62; x63]
              [x00; x00; x00; x00] false)
    as (ctx1 & ctx2 & out & Hw & Hrd & _ & _ & Hbytes).
  - exact default_stream_reachable.
  - simpl. lia.
  - unfold zlen. simpl. lia.
  - unfold zlen. simpl. lia.
  - exists ctx1, ctx2, out. split; [exact Hw|]. split; [exact Hrd|].
    apply Hbytes. reflexivity.
Defined.

Lemma sstm_seek_rewind ctx :
  0 <= used_size ctx < 2 ^ 32 -> seek_offs ctx <> 0 ->
  sstm_seek ctx 0 SSTM_SEEK_SET =
  Done (SSTM_OK,
        {| cap_size := cap_size ctx; alloc_size := alloc_size ctx;
           used_size := used_size ctx;
           stale_size := 0;
           fresh_size := used_size ctx;
           free_size := free_size ctx;
           ring_buff := ring_buff ctx;
           head_idx := head_idx ctx; tail_idx := tail_idx ctx;
           seek_offs := 0 |}).
Proof.
  intros Hu Hs. unfold sstm_seek, seek_abs_offs. cbv zeta.
  rewrite (u32_small 0) by lia. rewrite Z.sub_0_r, u32_small by lia.
  destruct (Z.ltb_spec 0 0); [lia|].
  destruct (Z.ltb_spec (used_size ctx) 0); [lia|].
  destruct (Z.eqb_spec 0 (seek_offs ctx)); [lia|]. done.
Qed.

(** Where the allocation size did not wrap around (capacity at most
    2^32 - 9), on a reachable stream that is empty (used = 0), writing K
    bytes, K <= free, reading K bytes without cleanup, seeking to offset 0
    from the start and reading K bytes again all succeed, and the second
    read delivers the K bytes the first read delivered. *)
Theorem rewind_reads_again (ctx : sstm_ctx) (data : option block)
    (dst1 dst2 : block) (k : Z) :
  reachable ctx ->
  cap_size ctx + 8 < 2 ^ 32 ->
  used_size ctx = 0 ->
  0 <= k <= free_size ctx ->
  (forall src, data = Some src -> k <= zlen src) ->
  k <= zlen dst1 ->
  k <= zlen dst2 ->
  exists ctx1 ctx2 ctx3 ctx4 out1 out2,
    sstm_write ctx data k = Done (SSTM_OK, ctx1) /\
    sstm_read ctx1 (Some dst1) k false = Done (SSTM_OK, ctx2, Some out1) /\
    sstm_seek ctx2 0 SSTM_SEEK_SET = Done (SSTM_OK, ctx3) /\
    sstm_read ctx3 (Some dst2) k false = Done (SSTM_OK, ctx4, Some out2) /\
    take (Z.to_nat k) out2 = take (Z.to_nat k) out1.
Proof.
  intros Hr Hcap Hused Hk Hsrc Hd1 Hd2.
  destruct (reachable_consistent ctx Hr) as [Hc _].
  pose proof Hc as Hc'. destruct Hc'. unfold is_u32 in *.
  destruct (Z.eq_dec k 0) as [->|Hnz].
  { exists ctx, ctx, ctx, ctx, dst1, dst2.
    split; [done|]. split; [done|]. split; [|done].
    unfold sstm_seek. simpl.
    replace (seek_offs ctx) with 0 by lia.
    destruct (Z.ltb_spec (used_size ctx) (u32 0)) as [Hlt|]; [|done].
    rewrite u32_small in Hlt; lia. }
  destruct (sstm_write_eval ctx data k Hc Hcap ltac:(lia) Hsrc)
    as (ring' & Hw & Hlen & _).
  match type of Hw with _ = Done (_, ?s) => set (ctx1 := s) in * end.
  assert (consistent ctx1) as Hc1.
  { apply (sstm_write_consistent ctx data k SSTM_OK ctx1); [done| |done].
    unfold is_u32. lia. }
  destruct (sstm_read_eval ctx1 (Some dst1) k false Hc1)
    as (ctx2 & Hrd1 & ->); [simpl; lia|simpl; lia|by intros d [= <-]|].
  set (ctx2 := advance_cursor ctx1 k) in *.
  set (ctx3 :=
         {| cap_size := cap_size ctx; alloc_size := alloc_size ctx;
            used_size := used_size ctx + k;
            stale_size := 0;
            fresh_size := used_size ctx + k;
            free_size := free_size ctx - k;
            ring_buff := ring';
            head_idx := head_idx ctx;
            tail_idx := (tail_idx ctx + k) mod (cap_size ctx + 1);
            seek_offs := 0 |}).
  assert (sstm_seek ctx2 0 SSTM_SEEK_SET = Done (SSTM_OK, ctx3)) as Hsk.
  { rewrite sstm_seek_rewind; [|simpl; lia|simpl; rewrite u32_small; lia].
    unfold ctx3. simpl. done. }
  assert (consistent ctx3) as Hc3.
  { apply (sstm_seek_consistent ctx2 0 SSTM_SEEK_SET SSTM_OK ctx3); [|by vm_compute|done].
    apply advance_cursor_consistent; [done|simpl; lia]. }
  destruct (sstm_read_eval ctx3 (Some dst2) k false Hc3)
    as (ctx4 & Hrd2 & _); [simpl; lia|simpl; lia|by intros d [= <-]|].
  exists ctx1, ctx2, ctx3, ctx4. do 2 eexists.
  split; [done|]. split; [exact Hrd1|]. split; [done|]. split; [exact Hrd2|].
  assert (read_window ctx3 k = read_window ctx1 k) as Hwin.
  { unfold read_window. simpl. do 3 f_equal. lia. }
  assert (length (read_window ctx1 k) = Z.to_nat k) as Hwl.
  { pose proof (ring_slice_length (ring_buff ctx1) (cap_size ctx1 + 1)
                  (u32 (head_idx ctx1 + seek_offs ctx1)) k ltac:(lia)) as Hl.
    unfold zlen in Hl. unfold read_window. lia. }
  rewrite Hwin, !take_app_length' by done. done.
Qed.

Lemma rewind_reads_again_witness :
  exists ctx1 ctx2 ctx3 ctx4 out1 out2,
    sstm_write default_stream (Some [x61; x62]) 2 = Done (SSTM_OK, ctx1) /\
    sstm_read ctx1 (Some [x00; x00]) 2 false = Done (SSTM_OK, ctx2, Some out1) /\
    sstm_seek ctx2 0 SSTM_SEEK_SET = Done (SSTM_OK, ctx3) /\
    sstm_read ctx3 (Some [xff; xff]) 2 false = Done (SSTM_OK, ctx4, Some out2) /\
    take (Z.to_nat 2) out2 = take (Z.to_nat 2) out1.
Proof.
  apply (rewind_reads_again default_stream (Some [x61; x62])
           [x00; x00] [xff; xff] 2).
  - exact default_stream_reachable.
  - simpl. lia.
  - reflexivity.
  - simpl. lia.
  - intros src [= <-]. unfold zlen. simpl. lia.
  - unfold zlen. simpl. lia.
  - unfold zlen. simpl. lia.
Defined.

(** C4: the code breaks the claim where [sstm_new] let the allocation size
    and the modulus wrap around.  The stream created with capacity
    2^32 - 1 is reachable and empty, its allocation size is 0 and
    capacity + 1 is 0 in uint32_t; K = 1 is within its free size.  The
    write stores the byte outside the empty ring buffer, and whatever ring
    buffer holds the byte afterwards, the read that follows takes its
    index modulo 0: the sequence write, read, seek, read does not
    succeed. *)
Theorem rewind_wrapped_modulus :
  reachable widest_stream /\
  used_size widest_stream = 0 /\
  0 <= 1 <= free_size widest_stream /\
  new_alloc_size (cap_size widest_stream) = 0 /\
  u32 (cap_size widest_stream + 1) = 0 /\
  sstm_write widest_stream (Some [x61]) 1 = Undef /\
  (forall ring dst cleanup,
     sstm_read (widest_stream_written ring) dst 1 cleanup = Undef) /\
  run_all [CallWrite (Some [x61]) 1; CallRead (Some [x00]) 1 false;
           CallSeek 0 SSTM_SEEK_SET; CallRead (Some [x00]) 1 false]
    widest_stream = Undef.
Proof.
  split; [exact widest_stream_reachable|]. split; [reflexivity|].
  split; [simpl; lia|]. repeat split; reflexivity.
Qed.

(** The split copy at work: on the default stream, 1000 bytes are written,
    read and reclaimed, so that head and tail stand at index 1000; the
    next 100 bytes cross the end of the ring (index 1024) on the way in
    and on the way out. *)
Example split_copy_round_trip :
  let bytes := replicate 60 x41 ++ replicate 40 x42 in
  exists ctx ctx1 ctx2,
    run_all [CallWrite None 1000; CallRead None 1000 true] default_stream
    = Done ctx /\
    tail_idx ctx = 1000 /\
    sstm_write ctx (Some bytes) 100 = Done (SSTM_OK, ctx1) /\
    tail_idx ctx1 = 75 /\
    sstm_read ctx1 (Some (replicate 100 x00)) 100 false
    = Done (SSTM_OK, ctx2, Some bytes).
Proof.
  do 3 eexists. split; [vm_compute; reflexivity|]. split; [reflexivity|].
  split; [vm_compute; reflexivity|]. split; [reflexivity|].
  vm_compute. reflexivity.
Qed.

(** ** A stream of capacity 2^31 *)

Lemma zlen_huge_ring : zlen huge_ring = 2147483656.
Proof. unfold zlen, huge_ring. rewrite length_replicate. apply Z2Nat.id. lia. Qed.

Lemma huge_stream_reachable ring :
  zlen ring = 2147483656 -> reachable (huge_stream ring 0 0 0 0).
Proof.
  intros Hlen.
  apply (reachable_new (Some {| conf_cap_size := 2147483648 |}) ring).
  - unfold conf_ok, is_u32. simpl. lia.
  - rewrite Hlen. by vm_compute.
  - by vm_compute.
Qed.

Lemma huge_stream_consistent ring stale fresh head tail :
  zlen ring = 2147483656 ->
  0 <= stale -> 0 <= fresh -> stale + fresh <= 2147483648 ->
  0 <= head <= 2147483648 -> 0 <= tail <= 2147483648 ->
  consistent (huge_stream ring stale fresh head tail).
Proof.
  intros Hlen Hs Hf Hu Hh Ht.
  split; simpl; unfold is_u32; try done; lia.
Qed.

Lemma huge_stream_write ring stale fresh head tail data size fresh' tail' :
  zlen ring = 2147483656 ->
  0 <= stale -> 0 <= fresh -> stale + fresh <= 2147483648 ->
  0 <= head <= 2147483648 -> 0 <= tail <= 2147483648 ->
  1 <= size <= 2147483648 - (stale + fresh) ->
  (forall src, data = Some src -> size <= zlen src) ->
  fresh' = fresh + size ->
  tail' = (tail + size) mod 2147483649 ->
  exists ring',
    zlen ring' = 2147483656 /\
    sstm_write (huge_stream ring stale fresh head tail) data size
    = Done (SSTM_OK, huge_stream ring' stale fresh' head tail') /\
    forall p, 0 <= p < 2147483649 ->
      byte_at ring' p =
      if decide ((p - tail) mod 2147483649 < size)
      then src_byte data ((p - tail) mod 2147483649)
      else byte_at ring p.
Proof.
  intros Hlen Hs Hf Hu Hh Ht Hsize Hsrc -> ->.
  pose proof (huge_stream_consistent ring stale fresh head tail
                Hlen Hs Hf Hu Hh Ht) as Hc.
  destruct (sstm_write_eval _ data size Hc) as (ring' & Hw & Hlen' & Hat);
    [simpl; lia|simpl; lia|done|].
  exists ring'. split; [simpl in Hlen'; lia|]. split; [|exact Hat].
  rewrite Hw. unfold huge_stream. simpl. do 2 f_equal. f_equal; lia.
Qed.

Lemma run_all_write data size cs ctx r ctx1 :
  sstm_write ctx data size = Done (r, ctx1) ->
  run_all (CallWrite data size :: cs) ctx = run_all cs ctx1.
Proof. intros H. simpl. rewrite H. done. Qed.

Lemma run_all_read data size cleanup cs ctx r ctx1 data' :
  sstm_read ctx data size cleanup = Done (r, ctx1, data') ->
  run_all (CallRead data size cleanup :: cs) ctx = run_all cs ctx1.
Proof. intros H. simpl. rewrite H. done. Qed.

Lemma run_all_clean cs ctx r ctx1 :
  sstm_clean ctx = Done (r, ctx1) ->
  run_all (CallClean :: cs) ctx = run_all cs ctx1.
Proof. intros H. simpl. rewrite H. done. Qed.

(** After [huge_calls] the stream is full of stale bytes, its head is at
    index 2^31 and its tail at 2^31 - 1. *)
Lemma huge_calls_run ring :
  zlen ring = 2147483656 ->
  exists ring',
    zlen ring' = 2147483656 /\
    byte_at ring' 0 = x00 /\
    run_all huge_calls (huge_stream ring 0 0 0 0)
    = Done (huge_stream ring' 2147483648 0 2147483648 2147483647).
Proof.
  intros Hlen.
  destruct (huge_stream_write ring 0 0 0 0 None 2147483648 2147483648 2147483648)
    as (ring1 & Hlen1 & Hw1 & Hat1); [side_condition..|].
  destruct (huge_stream_write ring1 0 0 2147483648 2147483648 None 2147483648
              2147483648 2147483647)
    as (ring2 & Hlen2 & Hw2 & Hat2); [side_condition..|].
  assert (sstm_read (huge_stream ring1 0 2147483648 0 2147483648) None
            2147483648 true
          = Done (SSTM_OK, huge_stream ring1 0 0 2147483648 2147483648, None))
    as Hr1 by (by vm_compute).
  assert (sstm_read (huge_stream ring2 0 2147483648 2147483648 2147483647) None
            2147483648 false
          = Done (SSTM_OK, huge_stream ring2 2147483648 0 2147483648 2147483647,
                  None))
    as Hr2 by (by vm_compute).
  exists ring2. split; [exact Hlen2|]. split.
  { rewrite Hat2 by lia.
    destruct (decide _) as [_|Hd]; [reflexivity|].
    exfalso. apply Hd. by vm_compute. }
  unfold huge_calls.
  rewrite (run_all_write _ _ _ _ _ _ Hw1).
  rewrite (run_all_read _ _ _ _ _ _ _ _ Hr1).
  rewrite (run_all_write _ _ _ _ _ _ Hw2).
  rewrite (run_all_read _ _ _ _ _ _ _ _ Hr2).
  reflexivity.
Qed.

Lemma run_all_app cs cs' ctx ctx1 :
  run_all cs ctx = Done ctx1 -> run_all (cs ++ cs') ctx = run_all cs' ctx1.
Proof.
  revert ctx. induction cs as [|c cs IH]; intros ctx; simpl.
  - by intros [= ->].
  - destruct (run c ctx) as [[r ctx2]|]; [|discriminate]. simpl. apply IH.
Qed.

Lemma huge_calls_ok : Forall call_ok huge_calls.
Proof. repeat constructor; unfold is_u32; lia. Qed.

(** One more clean: the head wraps to index 0 although the tail is at
    2^31 - 1 and nothing is in use. *)
Lemma huge_calls_clean_run ring :
  zlen ring = 2147483656 ->
  exists ring',
    zlen ring' = 2147483656 /\
    byte_at ring' 0 = x00 /\
    run_all (huge_calls ++ [CallClean]) (huge_stream ring 0 0 0 0)
    = Done (huge_stream ring' 0 0 0 2147483647).
Proof.
  intros Hlen. destruct (huge_calls_run ring Hlen) as (ring' & Hlen' & Hb & Hrun).
  exists ring'. split; [done|]. split; [done|].
  rewrite (run_all_app _ _ _ _ Hrun).
  assert (sstm_clean (huge_stream ring' 2147483648 0 2147483648 2147483647)
          = Done (SSTM_OK, huge_stream ring' 0 0 0 2147483647)) as Hcl
    by (by vm_compute).
  rewrite (run_all_clean _ _ _ _ Hcl). reflexivity.
Qed.

Lemma huge_fill_run ring :
  zlen ring = 2147483656 ->
  exists ring',
    run_all [CallWrite None 2147483648] (huge_stream ring 0 0 0 0)
    = Done (huge_stream ring' 0 2147483648 0 2147483648).
Proof.
  intros Hlen.
  destruct (huge_stream_write ring 0 0 0 0 None 2147483648 2147483648 2147483648)
    as (ring1 & _ & Hw1 & _); [side_condition..|].
  exists ring1. rewrite (run_all_write _ _ _ _ _ _ Hw1). reflexivity.
Qed.

Lemma huge_round_trip ring :
  zlen ring = 2147483656 ->
  exists ring' ctx1 ctx2,
    run_all (huge_calls ++ [CallClean]) (huge_stream ring 0 0 0 0)
    = Done (huge_stream ring' 0 0 0 2147483647) /\
    sstm_write (huge_stream ring' 0 0 0 2147483647) (Some [xff]) 1
    = Done (SSTM_OK, ctx1) /\
    sstm_read ctx1 (Some [x00]) 1 false = Done (SSTM_OK, ctx2, Some [x00]).
Proof.
  intros Hlen.
  destruct (huge_calls_clean_run ring Hlen) as (ring2 & Hlen2 & Hb2 & Hrun).
  destruct (huge_stream_write ring2 0 0 0 2147483647 (Some [xff]) 1 1 2147483648)
    as (ring3 & Hlen3 & Hw3 & Hat3);
    [side_condition..|intros ? [= <-]; unfold zlen; simpl; lia
    |side_condition|side_condition|].
  assert (byte_at ring3 0 = x00) as Hb3.
  { rewrite Hat3 by lia.
    destruct (decide _) as [Hd|_]; [|exact Hb2].
    exfalso. revert Hd. by vm_compute. }
  pose proof (huge_stream_consistent ring3 0 1 0 2147483648 Hlen3
                ltac:(lia) ltac:(lia) ltac:(lia) ltac:(lia) ltac:(lia)) as Hc3.
  destruct (sstm_read_eval _ (Some [x00]) 1 false Hc3) as (ctx2 & Hrd & _);
    [simpl; lia|simpl; lia|intros ? [= <-]; unfold zlen; simpl; lia|].
  assert (read_window (huge_stream ring3 0 1 0 2147483648) 1 = [byte_at ring3 0])
    as Hwin by (by vm_compute).
  rewrite Hwin, Hb3 in Hrd.
  exists ring2. do 2 eexists. split; [exact Hrun|]. split; [exact Hw3|].
  exact Hrd.
Qed.

(** C1 as stated fails: on the stream of capacity 2^31, fill, read all with
    cleanup, fill, read all: the stream so reached has head 2^31 and
    stale 2^31, their 32-bit sum is 0, and clean leaves head at 0 while
    tail is 2^31 - 1 and used is 0: invariant 4 is broken. *)
Lemma invariants_after_call_counterexample :
  exists ctx ctx',
    run_all huge_calls (huge_stream huge_ring 0 0 0 0) = Done ctx /\
    reachable ctx /\
    call_valid CallClean /\
    run CallClean ctx = Done (SSTM_OK, ctx') /\
    head_idx ctx' = 0 /\ tail_idx ctx' = 2147483647 /\ used_size ctx' = 0 /\
    ~ invariants ctx'.
Proof.
  destruct (huge_calls_run huge_ring zlen_huge_ring) as (ring' & _ & _ & Hrun).
  exists (huge_stream ring' 2147483648 0 2147483648 2147483647),
         (huge_stream ring' 0 0 0 2147483647).
  split; [exact Hrun|]. split.
  { apply (reachable_run_all huge_calls (huge_stream huge_ring 0 0 0 0)).
    - apply huge_stream_reachable. exact zlen_huge_ring.
    - exact huge_calls_ok.
    - exact Hrun. }
  split; [by split|]. split; [by vm_compute|].
  split; [reflexivity|]. split; [reflexivity|]. split; [reflexivity|].
  intros [_ _ _ Hd _]. revert Hd. by vm_compute.
Qed.

(** C7 as stated fails: on the stream of capacity 2^31 filled with 2^31
    bytes, a seek to the end (offset 0 from the end) has the target
    used = 2^31, neither negative nor beyond used, and the code returns
    SSTM_ERR_BAD_OFFS: used converted to int32_t is negative. *)
Lemma sstm_seek_target_counterexample :
  exists ctx,
    run_all [CallWrite None 2147483648] (huge_stream huge_ring 0 0 0 0) = Done ctx /\
    reachable ctx /\
    is_s32 0 /\
    seek_target ctx 0 SSTM_SEEK_END = used_size ctx /\
    0 <= used_size ctx /\
    sstm_seek ctx 0 SSTM_SEEK_END = Done (SSTM_ERR_BAD_OFFS, ctx).
Proof.
  destruct (huge_fill_run huge_ring zlen_huge_ring) as (ring' & Hrun).
  exists (huge_stream ring' 0 2147483648 0 2147483648).
  split; [exact Hrun|]. split.
  { apply (reachable_run_all [CallWrite None 2147483648]
             (huge_stream huge_ring 0 0 0 0)).
    - apply huge_stream_reachable. exact zlen_huge_ring.
    - repeat constructor; unfold is_u32; lia.
    - exact Hrun. }
  split; [unfold is_s32; lia|]. split; [by vm_compute|].
  split; [by vm_compute|]. by vm_compute.
Qed.

(** C3 as stated fails: on the stream of capacity 2^31, after
    [huge_calls] and a clean, nothing is fresh and everything is free;
    the byte 0xff is written at the tail, index 2^31 - 1, and the read
    delivers the byte at the head, index 0, which is 0x00. *)
Lemma write_then_read_counterexample :
  exists ctx ctx1 ctx2,
    run_all (huge_calls ++ [CallClean]) (huge_stream huge_ring 0 0 0 0) = Done ctx /\
    reachable ctx /\
    fresh_size ctx = 0 /\
    zlen [xff] <= free_size ctx /\
    sstm_write ctx (Some [xff]) (zlen [xff]) = Done (SSTM_OK, ctx1) /\
    sstm_read ctx1 (Some [x00]) (zlen [xff]) false = Done (SSTM_OK, ctx2, Some [x00]) /\
    take 1 [x00] <> [xff].
Proof.
  destruct (huge_round_trip huge_ring zlen_huge_ring)
    as (ring' & ctx1 & ctx2 & Hrun & Hw & Hrd).
  exists (huge_stream ring' 0 0 0 2147483647), ctx1, ctx2.
  split; [exact Hrun|]. split.
  { apply (reachable_run_all (huge_calls ++ [CallClean])
             (huge_stream huge_ring 0 0 0 0)).
    - apply huge_stream_reachable. exact zlen_huge_ring.
    - apply Forall_app. split; [exact huge_calls_ok|]. by repeat constructor.
    - exact Hrun. }
  split; [reflexivity|]. split; [by vm_compute|].
  split; [exact Hw|]. split; [exact Hrd|]. discriminate.
Qed.

(** ** Further properties: status, geometry and frame *)

Lemma write_copy_length ring cap tail size data ring' tail' :
  write_copy ring cap tail size data = Done (ring', tail') ->
  zlen ring' = zlen ring.
Proof.
  unfold write_copy. destruct (size <=? u32 (cap + 1 - tail)).
  - destruct (match data with
              | Some src => memcpy ring tail src 0 size
              | None => memset ring tail x00 size end) as [r|] eqn:Hr;
      [|discriminate].
    simpl. destruct (umod _ _); [|discriminate]. simpl. intros [= <- <-].
    destruct data; [apply memcpy_inv in Hr|apply memset_inv in Hr]; lia.
  - destruct data as [src|].
    + destruct (memcpy ring tail src 0 _) as [r1|] eqn:H1; [|discriminate].
      simpl. destruct (memcpy r1 0 src _ _) as [r2|] eqn:H2; [|discriminate].
      simpl. intros [= <- <-].
      apply memcpy_inv in H1. apply memcpy_inv in H2. lia.
    + destruct (memset ring tail x00 _) as [r1|] eqn:H1; [|discriminate].
      simpl. destruct (memset r1 0 x00 _) as [r2|] eqn:H2; [|discriminate].
      simpl. intros [= <- <-].
      apply memset_inv in H1. apply memset_inv in H2. lia.
Qed.

(** X1: the snapshot [sstm_stat] gives of a reachable stream, whatever its
    capacity, is consistent: used = stale + fresh, free = capacity - used,
    the cursor is the stale size, no count is negative and used does not
    exceed the capacity. *)
Theorem sstm_stat_consistent (ctx : sstm_ctx) :
  reachable ctx ->
  fst (sstm_stat ctx) = SSTM_OK /\
  let st := snd (sstm_stat ctx) in
  stat_used_size st = stat_stale_size st + stat_fresh_size st /\
  stat_free_size st = stat_cap_size st - stat_used_size st /\
  stat_seek_offs st = stat_stale_size st /\
  0 <= stat_stale_size st /\
  0 <= stat_fresh_size st /\
  0 <= stat_free_size st /\
  stat_used_size st <= stat_cap_size st /\
  is_u32 (stat_cap_size st).
Proof.
  intros Hr. destruct (reachable_consistent ctx Hr) as [[] _].
  split; [reflexivity|]. unfold is_u32 in *. simpl. repeat split; try done; lia.
Qed.

Lemma sample_stream_reachable : reachable sample_stream.
Proof.
  apply (reachable_run_all [CallWrite None 10; CallRead None 4 false]
           default_stream).
  - exact default_stream_reachable.
  - repeat constructor; unfold is_u32; lia.
  - vm_compute. reflexivity.
Qed.

Lemma sstm_stat_consistent_witness :
  snd (sstm_stat sample_stream)
  = {| stat_cap_size := 1024; stat_used_size := 10; stat_stale_size := 4;
       stat_fresh_size := 6; stat_free_size := 1014; stat_seek_offs := 4 |} /\
  stat_used_size (snd (sstm_stat sample_stream))
  = stat_stale_size (snd (sstm_stat sample_stream))
    + stat_fresh_size (snd (sstm_stat sample_stream)).
Proof.
  split; [reflexivity|].
  exact (proj1 (proj2 (sstm_stat_consistent sample_stream sample_stream_reachable))).
Defined.

(** X2: no call resizes the stream: whenever write, read, seek or clean
    returns, on any context, the capacity, the allocation size and the
    length of the ring buffer are what they were. *)
Theorem call_keeps_geometry (ctx : sstm_ctx) (c : call) (r : Z) (ctx' : sstm_ctx) :
  run c ctx = Done (r, ctx') ->
  cap_size ctx' = cap_size ctx /\
  alloc_size ctx' = alloc_size ctx /\
  zlen (ring_buff ctx') = zlen (ring_buff ctx).
Proof.
  destruct c as [data size|data size cleanup|offset whence|]; simpl.
  - unfold sstm_write.
    destruct (size =? 0); [by intros [= <- <-]|].
    destruct (free_size ctx <? size); [by intros [= <- <-]|].
    destruct (write_copy _ _ _ _ _) as [[ring' tail']|] eqn:Hw; [|discriminate].
    simpl. intros [= <- <-]. simpl.
    apply write_copy_length in Hw. done.
  - unfold sstm_read.
    destruct (size =? 0); [by intros [= <- <-]|].
    destruct (fresh_size ctx <? size); [by intros [= <- <-]|].
    destruct (umod _ _); [|discriminate]. simpl.
    destruct (match data with Some _ => _ | None => _ end); [|discriminate].
    simpl. destruct cleanup; [|by intros [= <- <-]].
    unfold sstm_clean. simpl.
    destruct (u32 (stale_size ctx + size) =? 0); [by intros [= <- <-]|].
    destruct (umod _ _); [|discriminate]. simpl. by intros [= <- <-].
  - unfold sstm_seek. cbv zeta.
    destruct (_ <? _); [by intros [= <- <-]|].
    destruct (_ <? _); [by intros [= <- <-]|].
    destruct (_ =? _); by intros [= <- <-].
  - unfold sstm_clean. cbv zeta.
    destruct (stale_size ctx =? 0); [by intros [= <- <-]|].
    destruct (umod _ _); [|discriminate]. simpl. by intros [= <- <-].
Qed.

Lemma call_keeps_geometry_witness :
  exists ctx',
    run (CallWrite (Some [x01; x02; x03]) 3) sample_stream = Done (SSTM_OK, ctx') /\
    cap_size ctx' = 1024 /\ alloc_size ctx' = 1032 /\
    zlen (ring_buff ctx') = 1032.
Proof.
  eexists. split; [reflexivity|].
  refine (call_keeps_geometry sample_stream (CallWrite (Some [x01; x02; x03]) 3)
            SSTM_OK _ _).
  reflexivity.
Defined.

(** X3: clean is idempotent: on any context, once clean has returned, a
    second clean returns SSTM_OK and changes nothing. *)
Theorem sstm_clean_idempotent (ctx : sstm_ctx) (r : Z) (ctx' : sstm_ctx) :
  sstm_clean ctx = Done (r, ctx') ->
  r = SSTM_OK /\ stale_size ctx' = 0 /\ sstm_clean ctx' = Done (SSTM_OK, ctx').
Proof.
  unfold sstm_clean at 1. cbv zeta.
  destruct (Z.eqb_spec (stale_size ctx) 0) as [Hz|Hnz].
  - intros [= <- <-]. split; [done|]. split; [done|].
    unfold sstm_clean. rewrite Hz. done.
  - destruct (umod _ _); [|discriminate]. simpl. intros [= <- <-]. done.
Qed.

Lemma sstm_clean_idempotent_witness :
  exists ctx',
    sstm_clean sample_stream = Done (SSTM_OK, ctx') /\
    free_size ctx' = 1018 /\
    sstm_clean ctx' = Done (SSTM_OK, ctx').
Proof.
  eexists. split; [reflexivity|]. split; [reflexivity|].
  refine (proj2 (proj2 (sstm_clean_idempotent sample_stream SSTM_OK _ _))).
  reflexivity.
Defined.

(** X4: only write stores into the ring buffer and moves the tail, and only
    reclamation moves the head: on any context, a read, a seek or a clean
    that returns leaves the ring buffer and the tail index as they were,
    and a write, a seek or a read without cleanup leaves the head index as
    it was. *)
Theorem call_frame (ctx : sstm_ctx) (c : call) (r : Z) (ctx' : sstm_ctx) :
  run c ctx = Done (r, ctx') ->
  (match c with
   | CallWrite _ _ => True
   | _ => ring_buff ctx' = ring_buff ctx /\ tail_idx ctx' = tail_idx ctx
   end) /\
  (match c with
   | CallClean | CallRead _ _ true => True
   | _ => head_idx ctx' = head_idx ctx
   end).
Proof.
  destruct c as [data size|data size cleanup|offset whence|]; simpl.
  - unfold sstm_write.
    destruct (size =? 0); [by intros [= <- <-]|].
    destruct (free_size ctx <? size); [by intros [= <- <-]|].
    destruct (write_copy _ _ _ _ _) as [[ring' tail']|]; [|discriminate].
    simpl. by intros [= <- <-].
  - unfold sstm_read.
    destruct (size =? 0); [intros [= <- <-]; by destruct cleanup|].
    destruct (fresh_size ctx <? size); [intros [= <- <-]; by destruct cleanup|].
    destruct (umod _ _); [|discriminate]. simpl.
    destruct (match data with Some _ => _ | None => _ end); [|discriminate].
    simpl. destruct cleanup; [|by intros [= <- <-]].
    unfold sstm_clean. simpl.
    destruct (u32 (stale_size ctx + size) =? 0); [by intros [= <- <-]|].
    destruct (umod _ _); [|discriminate]. simpl. by intros [= <- <-].
  - unfold sstm_seek. cbv zeta.
    destruct (_ <? _); [by intros [= <- <-]|].
    destruct (_ <? _); [by intros [= <- <-]|].
    destruct (_ =? _); by intros [= <- <-].
  - unfold sstm_clean. cbv zeta.
    destruct (stale_size ctx =? 0); [by intros [= <- <-]|].
    destruct (umod _ _); [|discriminate]. simpl. by intros [= <- <-].
Qed.

Lemma call_frame_witness :
  exists ctx',
    run (CallRead None 2 true) sample_stream = Done (SSTM_OK, ctx') /\
    ring_buff ctx' = ring_buff sample_stream /\
    tail_idx ctx' = tail_idx sample_stream.
Proof.
  eexists. split; [reflexivity|].
  refine (proj1 (call_frame sample_stream (CallRead None 2 true) SSTM_OK _ _)).
  reflexivity.
Defined.

(** ** Further properties: allocation, safety, composition *)

Lemma new_alloc_size_mult8 cap :
  0 <= cap -> cap + 8 < 2 ^ 32 -> new_alloc_size cap = 8 * (cap / 8 + 1).
Proof.
  intros H0 H1. unfold new_alloc_size.
  rewrite Z.shiftr_div_pow2, Z.shiftl_mul_pow2 by lia.
  change (2 ^ 3) with 8.
  pose proof (Z.div_mod cap 8 ltac:(lia)) as Hd.
  pose proof (Z.mod_pos_bound cap 8 ltac:(lia)) as Hm.
  rewrite (u32_small (cap / 8 + 1)) by lia.
  rewrite u32_small by lia. lia.
Qed.

(** X5: for a requested capacity of at most 2^32 - 9, the stream
    [sstm_new] produces has an allocation size that is a multiple of 8,
    exceeds the capacity by 1 to 8 bytes, and so is the smallest multiple
    of 8 with room for the capacity + 1 ring positions. *)
Theorem sstm_new_alloc_size (conf : option sstm_conf) (ring : block)
    (r : Z) (ctx : sstm_ctx) :
  conf_ok conf ->
  sstm_new conf (Some ring) true = Done (r, Some ctx) ->
  cap_size ctx + 8 < 2 ^ 32 ->
  alloc_size ctx mod 8 = 0 /\
  cap_size ctx + 1 <= alloc_size ctx <= cap_size ctx + 8 /\
  (forall a, a mod 8 = 0 -> cap_size ctx + 1 <= a -> alloc_size ctx <= a).
Proof.
  intros Hconf [= <- <-]. simpl. intros Hcap.
  assert (0 <= new_cap_size conf) as H0.
  { unfold new_cap_size, conf_ok, is_u32, SSTM_CAP_SIZE_DEF in *.
    destruct conf as [c|]; [|lia]. destruct (_ <? _); simpl in *; lia. }
  rewrite (new_alloc_size_mult8 _ H0 Hcap).
  pose proof (Z.div_mod (new_cap_size conf) 8 ltac:(lia)) as Hd.
  pose proof (Z.mod_pos_bound (new_cap_size conf) 8 ltac:(lia)) as Hm.
  split; [|split; [lia|]].
  - rewrite Z.mul_comm. apply Z_mod_mult.
  - intros a Ha Hle.
    pose proof (Z.div_mod a 8 ltac:(lia)) as Hda. lia.
Qed.

Lemma sstm_new_alloc_size_witness :
  exists ctx,
    sstm_new (Some {| conf_cap_size := 1000 |}) (Some []) true
    = Done (SSTM_OK, Some ctx) /\
    alloc_size ctx = 1008 /\
    alloc_size ctx mod 8 = 0.
Proof.
  eexists. split; [reflexivity|]. split; [reflexivity|].
  refine (proj1 (sstm_new_alloc_size (Some {| conf_cap_size := 1000 |}) []
                   SSTM_OK _ _ _ _)).
  - unfold conf_ok, is_u32. simpl. lia.
  - reflexivity.
  - simpl. lia.
Defined.

(** X6: for a requested capacity from 2^32 - 8 on, [sstm_new] asks malloc
    for 0 bytes: the allocation size computed in uint32_t wraps around,
    and the stream it returns has a ring buffer smaller than its
    capacity. *)
Theorem sstm_new_alloc_size_wraps (c : Z) (ring : block) (r : Z) (ctx : sstm_ctx) :
  2 ^ 32 - 8 <= c < 2 ^ 32 ->
  sstm_new (Some {| conf_cap_size := c |}) (Some ring) true = Done (r, Some ctx) ->
  cap_size ctx = c /\ alloc_size ctx = 0 /\ alloc_size ctx < cap_size ctx + 1.
Proof.
  intros Hc [= <- <-]. simpl.
  unfold SSTM_CAP_SIZE_MIN. destruct (Z.ltb_spec c 128); [lia|].
  rewrite new_alloc_size_wrap by lia. lia.
Qed.

Lemma sstm_new_alloc_size_wraps_witness :
  cap_size wrapped_stream = 4294967288 /\ alloc_size wrapped_stream = 0 /\
  alloc_size wrapped_stream < cap_size wrapped_stream + 1.
Proof.
  apply (sstm_new_alloc_size_wraps 4294967288 [] SSTM_OK wrapped_stream).
  - lia.
  - reflexivity.
Defined.

Lemma run_result_codes ctx c r ctx' :
  run c ctx = Done (r, ctx') ->
  r = SSTM_OK \/ r = SSTM_ERR_NO_SPACE \/ r = SSTM_ERR_NO_DATA \/
  r = SSTM_ERR_BAD_OFFS.
Proof.
  destruct c as [data size|data size cleanup|offset whence|]; simpl.
  - unfold sstm_write.
    destruct (size =? 0); [intros [= <- <-]; auto|].
    destruct (free_size ctx <? size); [intros [= <- <-]; auto|].
    destruct (write_copy _ _ _ _ _); [|discriminate].
    simpl. intros [= <- <-]. auto.
  - unfold sstm_read.
    destruct (size =? 0); [intros [= <- <-]; auto|].
    destruct (fresh_size ctx <? size); [intros [= <- <-]; auto|].
    destruct (umod _ _); [|discriminate]. simpl.
    destruct (match data with Some _ => _ | None => _ end); [|discriminate].
    simpl. destruct cleanup; [|intros [= <- <-]; auto].
    destruct (sstm_clean _); [|discriminate]. simpl. intros [= <- <-]. auto.
  - unfold sstm_seek. cbv zeta.
    destruct (_ <? _); [intros [= <- <-]; auto|].
    destruct (_ <? _); [intros [= <- <-]; auto|].
    destruct (_ =? _); intros [= <- <-]; auto.
  - unfold sstm_clean. cbv zeta.
    destruct (stale_size ctx =? 0); [intros [= <- <-]; auto|].
    destruct (umod _ _); [|discriminate]. simpl. intros [= <- <-]. auto.
Qed.

(** X7: on a reachable stream of capacity at most 2^32 - 9, every write,
    read, seek and clean whose buffer argument is NULL or has room for
    [size] bytes returns: no access leaves the ring buffer or the caller's
    buffer and no modulus is 0; the result is SSTM_OK, SSTM_ERR_NO_SPACE,
    SSTM_ERR_NO_DATA or SSTM_ERR_BAD_OFFS, and the stream is reachable
    again. *)
Theorem calls_return (ctx : sstm_ctx) (c : call) :
  reachable ctx ->
  cap_size ctx + 8 < 2 ^ 32 ->
  call_valid c ->
  exists r ctx',
    run c ctx = Done (r, ctx') /\
    (r = SSTM_OK \/ r = SSTM_ERR_NO_SPACE \/ r = SSTM_ERR_NO_DATA \/
     r = SSTM_ERR_BAD_OFFS) /\
    reachable ctx' /\
    cap_size ctx' + 8 < 2 ^ 32.
Proof.
  intros Hr Hcap Hv.
  destruct (reachable_consistent ctx Hr) as [Hc _].
  destruct (run_total ctx c Hc Hcap Hv) as (r & ctx' & Hrun).
  exists r, ctx'. split; [done|].
  split; [by apply (run_result_codes ctx c r ctx')|].
  split; [by apply (reachable_step ctx c r ctx' Hr (proj1 Hv))|].
  destruct (run_consistent ctx c r ctx' Hc (proj1 Hv) Hrun) as (_ & -> & _).
  done.
Qed.

Lemma calls_return_witness :
  exists r ctx',
    run (CallRead (Some [x00; x00; x00]) 3 true) sample_stream = Done (r, ctx') /\
    (r = SSTM_OK \/ r = SSTM_ERR_NO_SPACE \/ r = SSTM_ERR_NO_DATA \/
     r = SSTM_ERR_BAD_OFFS) /\
    reachable ctx' /\
    cap_size ctx' + 8 < 2 ^ 32.
Proof.
  apply (calls_return sample_stream (CallRead (Some [x00; x00; x00]) 3 true)).
  - exact sample_stream_reachable.
  - simpl. lia.
  - split; [unfold call_ok, is_u32; lia|]. unfold zlen. simpl. lia.
Defined.

(** X8: for a size other than 0, a read with the cleanup flag is the read
    without it followed by clean: on any context, when the plain read
    returns SSTM_OK and clean returns on the context it leaves, the read
    with cleanup returns SSTM_OK, the context clean leaves and the same
    destination bytes. *)
Theorem sstm_read_cleanup_composes (ctx : sstm_ctx) (data : option block)
    (size : Z) (ctx1 : sstm_ctx) (data' : option block) (rc : Z) (ctx2 : sstm_ctx) :
  size <> 0 ->
  sstm_read ctx data size false = Done (SSTM_OK, ctx1, data') ->
  sstm_clean ctx1 = Done (rc, ctx2) ->
  sstm_read ctx data size true = Done (SSTM_OK, ctx2, data').
Proof.
  intros Hs. unfold sstm_read.
  destruct (Z.eqb_spec size 0); [done|].
  destruct (fresh_size ctx <? size); [discriminate|].
  destruct (umod _ _); [|discriminate]. simpl.
  destruct (match data with Some _ => _ | None => _ end); [|discriminate].
  simpl. intros [= <- <-] ->. done.
Qed.

Lemma sstm_read_cleanup_composes_witness :
  exists ctx1 ctx2 out,
    sstm_read sample_stream (Some [xff; xff]) 2 false
    = Done (SSTM_OK, ctx1, Some out) /\
    sstm_clean ctx1 = Done (SSTM_OK, ctx2) /\
    sstm_read sample_stream (Some [xff; xff]) 2 true
    = Done (SSTM_OK, ctx2, Some out).
Proof.
  do 3 eexists. split; [reflexivity|]. split; [reflexivity|].
  refine (sstm_read_cleanup_composes sample_stream (Some [xff; xff]) 2
            _ _ SSTM_OK _ _ _ _).
  - discriminate.
  - reflexivity.
  - reflexivity.
Defined.

(** ** Further properties: the stream as a sequence of bytes *)

Lemma ring_slice_take ring m start k n :
  0 <= n <= k ->
  take (Z.to_nat n) (ring_slice ring m start k) = ring_slice ring m start n.
Proof.
  intros Hn.
  pose proof (ring_slice_length ring m start k ltac:(lia)) as Hk.
  apply block_ext.
  - rewrite ring_slice_length by lia. unfold zlen in *.
    rewrite length_take. lia.
  - intros j Hj.
    assert (0 <= j < n) as Hj'.
    { unfold zlen in *. rewrite length_take in Hj. lia. }
    rewrite byte_at_take, !ring_slice_at by lia. done.
Qed.

Lemma ring_slice_drop ring m start k n :
  0 <= n <= k ->
  drop (Z.to_nat n) (ring_slice ring m start k)
  = ring_slice ring m (start + n) (k - n).
Proof.
  intros Hn.
  pose proof (ring_slice_length ring m start k ltac:(lia)) as Hk.
  apply block_ext.
  - rewrite ring_slice_length by lia. unfold zlen in *.
    rewrite length_drop. lia.
  - intros j Hj.
    assert (0 <= j < k - n) as Hj'.
    { unfold zlen in *. rewrite length_drop in Hj. lia. }
    rewrite byte_at_drop, !ring_slice_at by lia. do 2 f_equal. lia.
Qed.

Lemma ring_slice_mod_start ring m start n :
  0 <= n ->
  ring_slice ring m (start mod m) n = ring_slice ring m start n.
Proof.
  intros Hn. apply block_ext.
  - by rewrite !ring_slice_length.
  - rewrite ring_slice_length by done. intros j Hj.
    rewrite !ring_slice_at by done. by rewrite Zplus_mod_idemp_l.
Qed.

(** The fresh bytes are the resident bytes past the stale ones. *)
Lemma fresh_drop_resident ctx :
  consistent ctx ->
  fresh_bytes ctx = drop (Z.to_nat (stale_size ctx)) (resident_bytes ctx).
Proof.
  intros []. unfold fresh_bytes, resident_bytes.
  rewrite ring_slice_drop by lia. rewrite cs_seek0. f_equal. lia.
Qed.

Lemma written_bytes_length data size :
  0 <= size -> (forall src, data = Some src -> size <= zlen src) ->
  zlen (written_bytes data size) = size.
Proof.
  intros Hs Hsrc. unfold zlen, written_bytes. destruct data as [src|].
  - specialize (Hsrc src eq_refl). unfold zlen in Hsrc.
    rewrite length_take. lia.
  - rewrite length_replicate. lia.
Qed.

Lemma written_bytes_at data size j :
  0 <= j < size -> byte_at (written_bytes data size) j = src_byte data j.
Proof.
  intros Hj. unfold written_bytes, src_byte. destruct data as [src|].
  - by apply byte_at_take.
  - unfold byte_at. apply lookup_total_replicate_2. lia.
Qed.

(** X9: a write appends: on a reachable stream of capacity below 2^31, a
    write of [size] bytes, size <= free, succeeds and the resident bytes
    afterwards are the resident bytes before followed by the bytes
    written (the first [size] bytes of the source, or zeros for a null
    source); no resident byte is overwritten. *)
Theorem sstm_write_appends (ctx : sstm_ctx) (data : option block) (size : Z) :
  reachable ctx ->
  cap_size ctx < 2 ^ 31 ->
  0 <= size <= free_size ctx ->
  (forall src, data = Some src -> size <= zlen src) ->
  exists ctx',
    sstm_write ctx data size = Done (SSTM_OK, ctx') /\
    resident_bytes ctx' = resident_bytes ctx ++ written_bytes data size /\
    fresh_bytes ctx' = fresh_bytes ctx ++ written_bytes data size.
Proof.
  intros Hr Hcap Hs Hsrc.
  destruct (reachable_consistent ctx Hr) as [Hc Hd]. specialize (Hd Hcap).
  destruct (Z.eq_dec size 0) as [->|Hnz].
  { exists ctx. split; [done|].
    assert (written_bytes data 0 = []) as ->.
    { unfold written_bytes. destruct data; [apply take_0|done]. }
    by rewrite !app_nil_r. }
  destruct (sstm_write_eval ctx data size Hc ltac:(lia) ltac:(lia) Hsrc)
    as (ring' & Hw & Hlen & Hat).
  match type of Hw with _ = Done (_, ?s) => set (ctx' := s) in * end.
  assert (consistent ctx') as Hc'.
  { apply (sstm_write_consistent ctx data size SSTM_OK ctx'); [done| |done].
    destruct Hc. unfold is_u32 in *. lia. }
  assert (resident_bytes ctx' = resident_bytes ctx ++ written_bytes data size)
    as Hres.
  { pose proof (written_bytes_length data size ltac:(lia) Hsrc) as Hwl.
    destruct Hc. unfold is_u32, dist_ok in *.
    assert (zlen (resident_bytes ctx) = used_size ctx) as Hrl
      by (apply ring_slice_length; lia).
    unfold resident_bytes at 1. simpl.
    set (m := cap_size ctx + 1) in *.
    apply block_ext.
    - rewrite ring_slice_length by lia. unfold zlen in *.
      rewrite length_app. lia.
    - rewrite ring_slice_length by lia. intros j Hj.
      rewrite ring_slice_at, byte_at_app, Hrl by lia.
      pose proof (Z.mod_pos_bound (head_idx ctx + j) m ltac:(lia)).
      rewrite Hat by lia.
      assert (((head_idx ctx + j) mod m - tail_idx ctx) mod m
              = (j - used_size ctx) mod m) as ->.
      { rewrite Zminus_mod_idemp_l.
        replace (head_idx ctx + j - tail_idx ctx)
          with (j - (tail_idx ctx - head_idx ctx)) by lia.
        by rewrite <- Zminus_mod_idemp_r, Hd. }
      destruct (decide (j < used_size ctx)).
      + rewrite mod_below by lia. case_decide; [lia|].
        unfold resident_bytes. rewrite ring_slice_at by lia. done.
      + rewrite Z.mod_small by lia. case_decide; [|lia].
        by rewrite written_bytes_at by lia. }
  exists ctx'. split; [done|]. split; [done|].
  rewrite (fresh_drop_resident ctx' Hc'), (fresh_drop_resident ctx Hc), Hres.
  simpl. rewrite drop_app_le; [done|].
  destruct Hc. fold (zlen (resident_bytes ctx)) in *.
  pose proof (ring_slice_length (ring_buff ctx) (cap_size ctx + 1)
                (head_idx ctx) (used_size ctx) ltac:(lia)) as Hl.
  unfold resident_bytes, zlen in *. lia.
Qed.

Lemma sstm_write_appends_witness :
  exists ctx',
    sstm_write sample_stream (Some [x61; x62; x63]) 3 = Done (SSTM_OK, ctx') /\
    resident_bytes ctx' = replicate 10 x00 ++ [x61; x62; x63].
Proof.
  destruct (sstm_write_appends sample_stream (Some [x61; x62; x63]) 3)
    as (ctx' & Hw & Hres & _).
  - exact sample_stream_reachable.
  - simpl. lia.
  - simpl. lia.
  - intros src [= <-]. unfold zlen. simpl. lia.
  - exists ctx'. split; [exact Hw|]. exact Hres.
Defined.

(** X10: a read consumes in order: on a reachable stream of capacity below
    2^31, a read of n bytes, n <= fresh, into a destination with room for
    them succeeds, puts the first n fresh bytes at the start of the
    destination and leaves the rest of it alone; without cleanup the fresh
    bytes left are the old ones past the first n, and the resident bytes
    are the same. *)
Theorem sstm_read_consumes (ctx : sstm_ctx) (dst : block) (n : Z) :
  reachable ctx ->
  cap_size ctx < 2 ^ 31 ->
  0 <= n <= fresh_size ctx ->
  n <= zlen dst ->
  exists ctx',
    sstm_read ctx (Some dst) n false
    = Done (SSTM_OK, ctx',
            Some (take (Z.to_nat n) (fresh_bytes ctx) ++ drop (Z.to_nat n) dst)) /\
    fresh_bytes ctx' = drop (Z.to_nat n) (fresh_bytes ctx) /\
    resident_bytes ctx' = resident_bytes ctx.
Proof.
  intros Hr Hcap Hn Hdst.
  destruct (reachable_consistent ctx Hr) as [Hc _].
  destruct (Z.eq_dec n 0) as [->|Hnz].
  { exists ctx. change (Z.to_nat 0) with 0%nat. by rewrite take_0, !drop_0. }
  destruct (sstm_read_eval ctx (Some dst) n false Hc) as (ctx' & Hrd & ->);
    [lia|lia|by intros d [= <-]|].
  exists (advance_cursor ctx n).
  pose proof Hc as Hc'. destruct Hc'. unfold is_u32 in *.
  split; [|split].
  - rewrite Hrd. simpl. do 4 f_equal.
    unfold read_window, fresh_bytes.
    rewrite u32_small by lia. symmetry. apply ring_slice_take. lia.
  - unfold fresh_bytes. simpl. rewrite !u32_small by lia.
    rewrite ring_slice_drop by lia. f_equal. lia.
  - reflexivity.
Qed.

Lemma sstm_read_consumes_witness :
  exists ctx',
    sstm_read sample_stream (Some [xff; xff; xff]) 2 false
    = Done (SSTM_OK, ctx', Some [x00; x00; xff]) /\
    fresh_bytes ctx' = drop (Z.to_nat 2) (fresh_bytes sample_stream).
Proof.
  destruct (sstm_read_consumes sample_stream [xff; xff; xff] 2)
    as (ctx' & Hrd & Hfresh & _).
  - exact sample_stream_reachable.
  - simpl. lia.
  - simpl. lia.
  - unfold zlen. simpl. lia.
  - exists ctx'. split; [exact Hrd|exact Hfresh].
Defined.

(** X11: a read with a NULL destination skips: on a reachable stream of
    capacity at most 2^32 - 9, with n <= fresh, it succeeds and leaves
    exactly the stream the same read into a real destination leaves,
    with or without cleanup. *)
Theorem sstm_read_null_skips (ctx : sstm_ctx) (dst : block) (n : Z)
    (cleanup : bool) :
  reachable ctx ->
  cap_size ctx + 8 < 2 ^ 32 ->
  0 <= n <= fresh_size ctx ->
  n <= zlen dst ->
  exists ctx' out,
    sstm_read ctx (Some dst) n cleanup = Done (SSTM_OK, ctx', Some out) /\
    sstm_read ctx None n cleanup = Done (SSTM_OK, ctx', None).
Proof.
  intros Hr Hcap Hn Hdst.
  destruct (reachable_consistent ctx Hr) as [Hc _].
  destruct (Z.eq_dec n 0) as [->|Hnz]; [by exists ctx, dst|].
  destruct (sstm_read_eval ctx (Some dst) n cleanup Hc) as (ctx1 & Hrd1 & Hc1);
    [lia|lia|by intros d [= <-]|].
  destruct (sstm_read_eval ctx None n cleanup Hc) as (ctx2 & Hrd2 & Hc2);
    [lia|lia|done|].
  assert (ctx2 = ctx1) as ->.
  { destruct cleanup; [|congruence]. rewrite Hc1 in Hc2. congruence. }
  exists ctx1. eexists. split; [exact Hrd1|exact Hrd2].
Qed.

Lemma sstm_read_null_skips_witness :
  exists ctx' out,
    sstm_read sample_stream (Some [xff; xff]) 2 true
    = Done (SSTM_OK, ctx', Some out) /\
    sstm_read sample_stream None 2 true = Done (SSTM_OK, ctx', None).
Proof.
  apply (sstm_read_null_skips sample_stream [xff; xff] 2 true).
  - exact sample_stream_reachable.
  - simpl. lia.
  - simpl. lia.
  - unfold zlen. simpl. lia.
Defined.

(** X12: a seek back undoes a read: on a reachable stream of capacity below
    2^31, after a read of n bytes, 0 < n <= fresh, without cleanup, a seek
    of -n from the current position returns SSTM_OK and the stream is
    exactly the one before the read. *)
Theorem sstm_seek_undoes_read (ctx : sstm_ctx) (data : option block) (n : Z) :
  reachable ctx ->
  cap_size ctx < 2 ^ 31 ->
  0 < n <= fresh_size ctx ->
  (forall dst, data = Some dst -> n <= zlen dst) ->
  exists ctx1 data',
    sstm_read ctx data n false = Done (SSTM_OK, ctx1, data') /\
    sstm_seek ctx1 (- n) SSTM_SEEK_CUR = Done (SSTM_OK, ctx).
Proof.
  intros Hr Hcap Hn Hdst.
  destruct (reachable_consistent ctx Hr) as [Hc _].
  destruct (sstm_read_eval ctx data n false Hc) as (ctx1 & Hrd & ->);
    [lia|lia|done|].
  do 2 eexists. split; [exact Hrd|].
  destruct Hc. unfold is_u32 in *.
  unfold sstm_seek, seek_abs_offs. cbv zeta. simpl.
  rewrite (u32_small (seek_offs ctx + n)) by lia.
  rewrite (s32_small (seek_offs ctx + n)) by lia.
  replace (seek_offs ctx + n + - n) with (seek_offs ctx) by lia.
  rewrite (s32_small (seek_offs ctx)) by lia.
  rewrite (u32_small (seek_offs ctx)) by lia.
  destruct (Z.ltb_spec (seek_offs ctx) 0); [lia|].
  destruct (Z.ltb_spec (used_size ctx) (seek_offs ctx)); [lia|].
  destruct (Z.eqb_spec (seek_offs ctx) (seek_offs ctx + n)); [lia|].
  rewrite u32_small by lia.
  destruct ctx. simpl in *. do 2 f_equal. f_equal; lia.
Qed.

Lemma sstm_seek_undoes_read_witness :
  exists ctx1 data',
    sstm_read sample_stream None 5 false = Done (SSTM_OK, ctx1, data') /\
    sstm_seek ctx1 (- 5) SSTM_SEEK_CUR = Done (SSTM_OK, sample_stream).
Proof.
  apply (sstm_seek_undoes_read sample_stream None 5).
  - exact sample_stream_reachable.
  - simpl. lia.
  - simpl. lia.
  - discriminate.
Defined.

(** X13: clean drops the stale bytes and nothing else: on a reachable
    stream of capacity below 2^31 it returns SSTM_OK, the fresh bytes are
    the same, and the resident bytes afterwards are exactly the fresh
    bytes. *)
Theorem sstm_clean_keeps_fresh (ctx : sstm_ctx) :
  reachable ctx ->
  cap_size ctx < 2 ^ 31 ->
  exists ctx',
    sstm_clean ctx = Done (SSTM_OK, ctx') /\
    fresh_bytes ctx' = fresh_bytes ctx /\
    resident_bytes ctx' = fresh_bytes ctx.
Proof.
  intros Hr Hcap.
  destruct (reachable_consistent ctx Hr) as [Hc _].
  pose proof Hc as Hc'. destruct Hc'. unfold is_u32 in *.
  destruct (Z.eq_dec (stale_size ctx) 0) as [Hz|Hnz].
  - exists ctx. unfold sstm_clean. rewrite Hz. simpl. split; [done|].
    split; [done|]. unfold resident_bytes, fresh_bytes.
    do 2 f_equal; lia.
  - rewrite sstm_clean_eval by (done || lia). eexists. split; [reflexivity|].
    unfold resident_bytes, fresh_bytes. simpl.
    rewrite u32_small by lia. rewrite Z.add_0_r.
    rewrite !ring_slice_mod_start by lia.
    split; f_equal; lia.
Qed.

Lemma sstm_clean_keeps_fresh_witness :
  exists ctx',
    sstm_clean sample_stream = Done (SSTM_OK, ctx') /\
    fresh_bytes ctx' = fresh_bytes sample_stream /\
    resident_bytes ctx' = fresh_bytes sample_stream.
Proof.
  apply (sstm_clean_keeps_fresh sample_stream).
  - exact sample_stream_reachable.
  - simpl. lia.
Defined.

(** X14: a seek positions the next read: on a reachable stream of capacity
    below 2^31, a seek whose target (offset, cursor + offset or
    used + offset) lies in [0, used] returns SSTM_OK, keeps the resident
    bytes, and makes the fresh bytes the resident bytes from the target
    on. *)
Theorem sstm_seek_positions (ctx : sstm_ctx) (offset : Z) (whence : sstm_whence) :
  reachable ctx ->
  cap_size ctx < 2 ^ 31 ->
  is_s32 offset ->
  0 <= seek_target ctx offset whence <= used_size ctx ->
  exists ctx',
    sstm_seek ctx offset whence = Done (SSTM_OK, ctx') /\
    resident_bytes ctx' = resident_bytes ctx /\
    fresh_bytes ctx'
    = drop (Z.to_nat (seek_target ctx offset whence)) (resident_bytes ctx).
Proof.
  intros Hr Hcap Ho Ht.
  destruct (reachable_consistent ctx Hr) as [Hc _].
  destruct (seek_abs_offs_target ctx offset whence Hc Hcap Ho) as [Heq|[_ ?]];
    [|lia].
  set (target := seek_target ctx offset whence) in *.
  pose proof Hc as Hc'. destruct Hc'. unfold is_u32 in *.
  unfold sstm_seek. cbv zeta. rewrite Heq.
  rewrite (u32_small target) by lia.
  destruct (Z.ltb_spec target 0); [lia|].
  destruct (Z.ltb_spec (used_size ctx) target); [lia|].
  destruct (Z.eqb_spec target (seek_offs ctx)) as [He|Hne].
  - exists ctx. split; [done|]. split; [done|].
    rewrite (fresh_drop_resident ctx Hc). do 2 f_equal. lia.
  - eexists. split; [reflexivity|]. split; [reflexivity|].
    unfold fresh_bytes, resident_bytes. simpl.
    rewrite u32_small by lia. by rewrite ring_slice_drop by lia.
Qed.

Lemma sstm_seek_positions_witness :
  exists ctx',
    sstm_seek sample_stream (- 8) SSTM_SEEK_END = Done (SSTM_OK, ctx') /\
    resident_bytes ctx' = resident_bytes sample_stream /\
    fresh_bytes ctx' = drop (Z.to_nat 2) (resident_bytes sample_stream).
Proof.
  apply (sstm_seek_positions sample_stream (- 8) SSTM_SEEK_END).
  - exact sample_stream_reachable.
  - simpl. lia.
  - unfold is_s32. lia.
  - simpl. lia.
Defined.

(** X15: the spare ring position tells empty from full: on a reachable
    stream of capacity below 2^31, nothing is resident exactly when the
    head and tail indices are equal, and nothing is free exactly when the
    tail stands one position before the head, modulo capacity + 1. *)
Theorem ring_empty_or_full (ctx : sstm_ctx) :
  reachable ctx ->
  cap_size ctx < 2 ^ 31 ->
  (used_size ctx = 0 <-> tail_idx ctx = head_idx ctx) /\
  (free_size ctx = 0 <->
   (tail_idx ctx + 1) mod (cap_size ctx + 1) = head_idx ctx).
Proof.
  intros Hr Hcap.
  destruct (reachable_consistent ctx Hr) as [Hc Hd]. specialize (Hd Hcap).
  destruct Hc. unfold is_u32, dist_ok in *.
  set (m := cap_size ctx + 1) in *.
  assert ((tail_idx ctx - head_idx ctx) mod m
          = if decide (head_idx ctx <= tail_idx ctx)
            then tail_idx ctx - head_idx ctx
            else tail_idx ctx - head_idx ctx + m) as Hmod.
  { case_decide; [apply Z.mod_small|apply mod_below]; lia. }
  assert ((tail_idx ctx + 1) mod m
          = if decide (tail_idx ctx = cap_size ctx) then 0
            else tail_idx ctx + 1) as Hnext.
  { destruct (decide (tail_idx ctx = cap_size ctx)) as [He|He].
    - rewrite He. fold m. apply Z_mod_same_full.
    - apply Z.mod_small. lia. }
  rewrite Hnext. rewrite Hmod in Hd.
  destruct (decide (head_idx ctx <= tail_idx ctx));
    destruct (decide (tail_idx ctx = cap_size ctx)); lia.
Qed.

Lemma ring_empty_or_full_witness :
  (used_size default_stream = 0 <->
   tail_idx default_stream = head_idx default_stream) /\
  (free_size default_stream = 0 <->
   (tail_idx default_stream + 1) mod (cap_size default_stream + 1)
   = head_idx default_stream).
Proof.
  apply (ring_empty_or_full default_stream).
  - exact default_stream_reachable.
  - simpl. lia.
Defined.
